(** * Patent-citation centrality notebook: a shallow embedding

    The notebook [patent_centrality.ipynb] is a pipeline of four stages:

    - the graph builder, [nx.read_adjlist] with a comma as delimiter, the double quote as
      comment character and [create_using=nx.DiGraph];
    - the centrality engine, [nx.in_degree_centrality], [nx.pagerank] and
      [nx.eigenvector_centrality_numpy];
    - the ranking, [sorted(scores.items(), key=operator.itemgetter(1),
      reverse=True)[:k]];
    - the report, [lookup(patent_ids)], a pandas selection on [pat_data].

    The notebook's own code is the call sites, the ranking expression and
    [lookup]; the callees are the Python built-ins, networkx and pandas.  The
    networkx functions are embedded from their Python source, which is quoted
    next to each definition; the built-ins and the pandas selections follow
    their documented behaviour.  Of [nx.pagerank] and
    [nx.eigenvector_centrality_numpy] the guards and the construction of the
    result are embedded; their floating-point iterations (a power iteration
    on scipy sparse matrices, and ARPACK) are parameters.

    Conventions.  A [string] is a sequence of bytes; the file is read as
    bytes and decoded as UTF-8.  On ASCII text bytes and characters are the
    same, and the properties of text are stated for ASCII text.  Python
    [dict]s keep insertion order, so they are association lists with unique
    keys.  Python exceptions are the constructors of [exn]; a computation that
    may raise returns a [result].  The scores are Python floats; a finite
    float is the rational it denotes (the order on finite floats is the order
    of [Q]), and the arithmetic on floats rounds as binary64 does
    ([Binary64]). *)

From Stdlib Require Import ZArith QArith Qround Qpower Lqa List String Ascii Bool Lia Permutation Sorted.
From stdpp Require Import base option list gmap strings.

Local Open Scope string_scope.
Local Open Scope list_scope.

(** ** Exceptions and results *)

Inductive exn : Type :=
| IndexError
| KeyError (key : string)
| ValueError (literal : string)
| NameError (name : string)
| UnicodeDecodeError
| KeyErrorNotInIndex (missing : list string)
| KeyErrorNoneInColumns (key : list string)
| ZeroDivisionError
| NetworkXPointlessConcept
| PowerIterationFailedConvergence (iterations : nat)
| ArpackNoConvergence
| TypeError.

Inductive result (A : Type) : Type :=
| Ok (a : A)
| Raise (e : exn).

Arguments Ok {A} a.
Arguments Raise {A} e.

Definition rbind {A B : Type} (r : result A) (k : A -> result B) : result B :=
  match r with
  | Ok a => k a
  | Raise e => Raise e
  end.

Notation "'let*' x := r 'in' k" := (rbind r (fun x => k))
  (at level 10, x name, r at level 100, k at level 200).

Definition raises {A : Type} (r : result A) : Prop :=
  match r with Ok _ => False | Raise _ => True end.

Definition returns {A : Type} (r : result A) : Prop :=
  match r with Ok _ => True | Raise _ => False end.

(** ** Python strings *)

Module PyStr.

Definition nl : ascii := "010"%char.
Definition comma : ascii := ","%char.
Definition dquote : ascii := "034"%char.

(** [str.isspace] on the ASCII range: TAB, LF, VT, FF, CR, the four
    separators FS, GS, RS, US and the space.  (The blank characters beyond
    ASCII, which [strip] also drops, are not embedded: the properties of the
    reader are stated for ASCII text.) *)
Definition is_space (c : ascii) : bool :=
  let n := nat_of_ascii c in
  (((9 <=? n) && (n <=? 13)) || ((28 <=? n) && (n <=? 32)))%nat.

(** [s.find(c)]: index of the first occurrence of [c], or [-1]. *)
Fixpoint find (c : ascii) (s : string) : Z :=
  match s with
  | EmptyString => (-1)%Z
  | String d r =>
      if Ascii.eqb d c then 0%Z
      else let p := find c r in
           if (p <? 0)%Z then (-1)%Z else (p + 1)%Z
  end.

(** [s[:n]] for [n >= 0]. *)
Fixpoint take (n : nat) (s : string) : string :=
  match n, s with
  | O, _ => EmptyString
  | S _, EmptyString => EmptyString
  | S m, String c r => String c (take m r)
  end.

Fixpoint lstrip (s : string) : string :=
  match s with
  | EmptyString => EmptyString
  | String c r => if is_space c then lstrip r else s
  end.

Fixpoint rstrip (s : string) : string :=
  match s with
  | EmptyString => EmptyString
  | String c r =>
      match rstrip r with
      | EmptyString => if is_space c then EmptyString else String c EmptyString
      | r' => String c r'
      end
  end.

(** [s.strip()] *)
Definition strip (s : string) : string := rstrip (lstrip s).

(** [s.split(sep)] with an explicit one-character separator: every
    occurrence splits, empty fields are kept, the result is never empty. *)
Fixpoint split (sep : ascii) (s : string) : list string :=
  match s with
  | EmptyString => [EmptyString]
  | String c r =>
      if Ascii.eqb c sep then EmptyString :: split sep r
      else match split sep r with
           | [] => [String c EmptyString]
           | f :: fs => String c f :: fs
           end
  end.

(** Iterating a file: the lines, each with its terminating LF (the last
    line may lack one). *)
Fixpoint readlines (s : string) : list string :=
  match s with
  | EmptyString => []
  | String c r =>
      if Ascii.eqb c nl then String c EmptyString :: readlines r
      else match readlines r with
           | [] => [String c EmptyString]
           | l :: ls => String c l :: ls
           end
  end.

Definition is_digit (c : ascii) : bool :=
  let n := nat_of_ascii c in ((48 <=? n) && (n <=? 57))%nat.

Definition digit_val (c : ascii) : Z := Z.of_nat (nat_of_ascii c - 48).

(** [s.isascii()]: every byte is below 128. *)
Fixpoint is_ascii (s : string) : bool :=
  match s with
  | EmptyString => true
  | String c r => (nat_of_ascii c <? 128)%nat && is_ascii r
  end.

Definition between (lo hi : nat) (c : ascii) : bool :=
  ((lo <=? nat_of_ascii c) && (nat_of_ascii c <=? hi))%nat.

(** Well-formed UTF-8: what [bytes.decode] accepts.  One byte below 128; two
    bytes C2..DF 80..BF; three bytes E0 A0..BF 80..BF, E1..EC 80..BF 80..BF,
    ED 80..9F 80..BF, EE..EF 80..BF 80..BF; four bytes F0 90..BF 80..BF
    80..BF, F1..F3 80..BF 80..BF 80..BF, F4 80..8F 80..BF 80..BF. *)
Fixpoint utf8_valid (s : string) : bool :=
  match s with
  | EmptyString => true
  | String b0 r0 =>
      let n0 := nat_of_ascii b0 in
      if (n0 <? 128)%nat then utf8_valid r0
      else if between 194 223 b0 then
        match r0 with
        | String b1 r1 => between 128 191 b1 && utf8_valid r1
        | _ => false
        end
      else if between 224 239 b0 then
        match r0 with
        | String b1 (String b2 r2) =>
            (if (n0 =? 224)%nat then between 160 191 b1
             else if (n0 =? 237)%nat then between 128 159 b1
             else between 128 191 b1)
            && between 128 191 b2 && utf8_valid r2
        | _ => false
        end
      else if between 240 244 b0 then
        match r0 with
        | String b1 (String b2 (String b3 r3)) =>
            (if (n0 =? 240)%nat then between 144 191 b1
             else if (n0 =? 244)%nat then between 128 143 b1
             else between 128 191 b1)
            && between 128 191 b2 && between 128 191 b3 && utf8_valid r3
        | _ => false
        end
      else false
  end.

(** [line.decode("utf-8")]: the text is kept as its bytes. *)
Definition decode (line : string) : result string :=
  if utf8_valid line then Ok line else Raise UnicodeDecodeError.

End PyStr.

(** ** Insertion-ordered dictionaries *)

Module Dict.

Definition dict (V : Type) : Type := list (string * V).

Definition keys {V : Type} (d : dict V) : list string := map fst d.

(** [d.get(k)] *)
Fixpoint get {V : Type} (k : string) (d : dict V) : option V :=
  match d with
  | [] => None
  | (k', v) :: r => if String.eqb k' k then Some v else get k r
  end.

(** [k in d] *)
Definition mem {V : Type} (k : string) (d : dict V) : bool :=
  match get k d with Some _ => true | None => false end.

(** [d[k]], raising [KeyError] *)
Definition getitem {V : Type} (k : string) (d : dict V) : result V :=
  match get k d with Some v => Ok v | None => Raise (KeyError k) end.

(** [d[k] = v]: an existing key keeps its position, a new key goes last. *)
Fixpoint set {V : Type} (k : string) (v : V) (d : dict V) : dict V :=
  match d with
  | [] => [(k, v)]
  | (k', v') :: r =>
      if String.eqb k' k then (k', v) :: r else (k', v') :: set k v r
  end.

(** [{k: v for k, v in items}]: a later item overwrites an earlier one
    with the same key. *)
Definition of_items {V : Type} (items : list (string * V)) : dict V :=
  fold_left (fun d '(k, v) => set k v d) items [].

End Dict.

(** ** Directed graphs: [networkx.DiGraph]

    A [DiGraph] holds three dictionaries, [_node] (node to attribute
    dictionary), [_succ] and [_pred] (node to neighbour to edge attribute
    dictionary).  The adjacency-list reader attaches no attribute, so every
    attribute dictionary is the empty one, [tt]. *)

Module DiGraph.
Import Dict.

Record t : Type := mk {
  _node : dict unit;
  _succ : dict (dict unit);
  _pred : dict (dict unit)
}.

(** [nx.empty_graph(0, create_using=nx.DiGraph)] *)
Definition empty : t := {| _node := []; _succ := []; _pred := [] |}.

(** [[
    def add_node(self, node_for_adding, **attr):
        if node_for_adding not in self._succ:
            self._succ[node_for_adding] = {}
            self._pred[node_for_adding] = {}
            attr_dict = self._node[node_for_adding] = {}
            attr_dict.update(attr)
        else:
            self._node[node_for_adding].update(attr)
    ]] *)
Definition add_node (u : string) (g : t) : t :=
  if mem u (_succ g) then g
  else {| _node := set u tt (_node g);
          _succ := set u [] (_succ g);
          _pred := set u [] (_pred g) |}.

(** One round of the loop of [add_edges_from]:
    [[
        if u not in self._succ: (as in add_node)
        if v not in self._succ: (as in add_node)
        datadict = self._adj[u].get(v, {})
        self._succ[u][v] = datadict
        self._pred[v][u] = datadict
    ]] *)
Definition add_edge (u v : string) (g : t) : result t :=
  let g := add_node u g in
  let g := add_node v g in
  let* su := getitem u (_succ g) in
  let g := {| _node := _node g;
              _succ := set u (set v tt su) (_succ g);
              _pred := _pred g |} in
  let* pv := getitem v (_pred g) in
  Ok {| _node := _node g;
        _succ := _succ g;
        _pred := set v (set u tt pv) (_pred g) |}.

(** [self.add_edges_from([(u, v) for v in vlist])] *)
Fixpoint add_edges_from (u : string) (vlist : list string) (g : t) : result t :=
  match vlist with
  | [] => Ok g
  | v :: vs => let* g' := add_edge u v g in add_edges_from u vs g'
  end.

(** [list(G)], [len(G)] *)
Definition nodes (g : t) : list string := keys (_node g).
Definition number_of_nodes (g : t) : nat := length (_node g).

(** The edges that leave one entry [(u, nbrs)] of [_succ]. *)
Definition out_edges (entry : string * dict unit) : list (string * string) :=
  map (fun v => (fst entry, v)) (keys (snd entry)).

(** [G.edges]: [(u, v) for u, nbrs in self._succ.items() for v in nbrs] *)
Definition edges (g : t) : list (string * string) :=
  flat_map out_edges (_succ g).

(** [G.has_edge(u, v)] *)
Definition has_edge (u v : string) (g : t) : bool :=
  match get u (_succ g) with
  | Some nbrs => mem v nbrs
  | None => false
  end.

(** [G.in_degree()]: [(n, len(self._pred[n])) for n in self._node] *)
Fixpoint in_degree_of (ns : list string) (pred : dict (dict unit))
  : result (list (string * nat)) :=
  match ns with
  | [] => Ok []
  | n :: r =>
      let* preds := getitem n pred in
      let* rest := in_degree_of r pred in
      Ok ((n, length preds) :: rest)
  end.

Definition in_degree (g : t) : result (list (string * nat)) :=
  in_degree_of (nodes g) (_pred g).

(** [u in G.pred[v]] *)
Definition has_pred (v u : string) (g : t) : bool :=
  match get v (_pred g) with
  | Some preds => mem u preds
  | None => false
  end.

(** The representation invariant of the class: the three dictionaries have
    the same keys in the same order, [_pred] is [_succ] reversed, and the
    neighbours of a node are nodes. *)
Record wf (g : t) : Prop := {
  wf_succ_keys : keys (_succ g) = keys (_node g);
  wf_pred_keys : keys (_pred g) = keys (_node g);
  wf_nodup : List.NoDup (keys (_node g));
  wf_sym : forall u v, has_edge u v g = has_pred v u g;
  wf_succ_nodup : forall u nbrs, get u (_succ g) = Some nbrs -> List.NoDup (keys nbrs);
  wf_pred_nodup : forall v preds, get v (_pred g) = Some preds -> List.NoDup (keys preds);
  wf_closed : forall u v, has_edge u v g = true -> In v (keys (_node g))
}.

(** The number of edges that end in [v]. *)
Definition indegree (g : t) (v : string) : nat :=
  length (List.filter (fun e => String.eqb (snd e) v) (edges g)).

End DiGraph.

(** ** The graph builder: [networkx.readwrite.adjlist]

    [[
    def parse_adjlist(lines, comments, delimiter, create_using, nodetype=None):
        G = nx.empty_graph(0, create_using)
        for line in lines:
            p = line.find(comments)
            if p >= 0:
                line = line[:p]
            if not len(line):
                continue
            vlist = line.strip().split(delimiter)
            u = vlist.pop(0)
            G.add_node(u)
            G.add_edges_from([(u, v) for v in vlist])
        return G

    def read_adjlist(path, comments, delimiter, create_using, encoding="utf-8"):
        lines = (line.decode(encoding) for line in path)
        return parse_adjlist(lines, comments=comments, delimiter=delimiter,
                             create_using=create_using)
    ]]
    The file is open in binary mode; [lines] is a generator, so a line is
    decoded when the loop of [parse_adjlist] reaches it.  (The fields are cut
    with [strip], as in networkx up to 3.3, the releases for the notebook's
    Python 3.12 kernel.) *)

Module AdjList.
Import PyStr.

(** The part of the line before the comment character. *)
Definition uncomment (comments : ascii) (line : string) : string :=
  let p := find comments line in
  if (0 <=? p)%Z then take (Z.to_nat p) line else line.

(** The fields of a line that is not skipped. *)
Definition fields (comments delimiter : ascii) (line : string) : list string :=
  split delimiter (strip (uncomment comments line)).

Definition skipped (comments : ascii) (line : string) : bool :=
  Nat.eqb (String.length (uncomment comments line)) 0.

Definition parse_line (comments delimiter : ascii) (line : string) (g : DiGraph.t)
  : result DiGraph.t :=
  if skipped comments line then Ok g
  else
    match fields comments delimiter line with
    | [] => Raise IndexError
    | u :: vlist => DiGraph.add_edges_from u vlist (DiGraph.add_node u g)
    end.

Fixpoint parse_from (comments delimiter : ascii) (lines : list string) (g : DiGraph.t)
  : result DiGraph.t :=
  match lines with
  | [] => Ok g
  | line :: rest =>
      let* g' := parse_line comments delimiter line g in
      parse_from comments delimiter rest g'
  end.

Definition parse_adjlist (comments delimiter : ascii) (lines : list string)
  : result DiGraph.t :=
  parse_from comments delimiter lines DiGraph.empty.

(** The loop of [parse_adjlist] on the generator of decoded lines. *)
Fixpoint read_from (comments delimiter : ascii) (raw : list string) (g : DiGraph.t)
  : result DiGraph.t :=
  match raw with
  | [] => Ok g
  | bytes :: rest =>
      let* line := decode bytes in
      let* g' := parse_line comments delimiter line g in
      read_from comments delimiter rest g'
  end.

Definition read_adjlist (text : string) (comments delimiter : ascii)
  : result DiGraph.t :=
  read_from comments delimiter (readlines text) DiGraph.empty.

(** The lines that are read as one (citing, cited) pair, and their pairs. *)
Definition two_fields (comments delimiter : ascii) (line : string) : Prop :=
  skipped comments line = true
  \/ length (fields comments delimiter line) = 2%nat.

Definition pairs (comments delimiter : ascii) (lines : list string)
  : list (string * string) :=
  flat_map (fun line =>
              if skipped comments line then []
              else match fields comments delimiter line with
                   | [u; v] => [(u, v)]
                   | _ => []
                   end) lines.

End AdjList.

(** The notebook's call: [G = nx.read_adjlist(file, delimiter=COMMA,
    comments=DOUBLE QUOTE, create_using=nx.DiGraph)]. *)
Definition build_graph (text : string) : result DiGraph.t :=
  AdjList.read_adjlist text PyStr.dquote PyStr.comma.

(** ** Python floats: IEEE 754 binary64, round to nearest, ties to even

    A finite double is the rational it denotes.  [round x] is the double
    nearest to the rational [x]: 53 significant bits at the exponent of [x],
    or the multiple of [2^-1074] nearest to [x] in the subnormal range; a tie
    goes to the even significand.  The conversion of an integer and the
    operations [-], [*] and [/] of Python floats return the rounded exact
    result.  The integers converted here are sizes of dictionaries, which are
    below [2^63], so the results stay far below [2^1024]: the overflow of
    the format does not arise and [round] has no case for it. *)

Module Binary64.
Local Open Scope Q_scope.

Definition pow2 (e : Z) : Q := Qpower 2 e.

(** The exponent of a positive [x]: [2^(ilog2 x) <= x < 2^(ilog2 x + 1)]. *)
Definition ilog2 (x : Q) : Z :=
  let k := (Z.log2 (Qnum x) - Z.log2 (Zpos (Qden x)))%Z in
  if Qle_bool (pow2 k) x then k else (k - 1)%Z.

(** The nearest integer, ties to even. *)
Definition rne (m : Q) : Z :=
  let f := Qfloor m in
  match Qcompare (m - inject_Z f) (1 # 2) with
  | Lt => f
  | Gt => (f + 1)%Z
  | Eq => if Z.even f then f else (f + 1)%Z
  end.

(** The exponent of the least subnormal. *)
Definition emin : Z := -1074.

Definition round_pos (x : Q) : Q :=
  let e := Z.max (ilog2 x - 52) emin in
  inject_Z (rne (x / pow2 e)) * pow2 e.

Definition round (x : Q) : Q :=
  match Qcompare x 0 with
  | Eq => 0
  | Gt => round_pos x
  | Lt => - round_pos (- x)
  end.

(** Half the distance from 1 to the next double. *)
Definition unit_roundoff : Q := pow2 (-53).

(** [float(z)] for a Python integer *)
Definition of_int (z : Z) : Q := round (inject_Z z).

(** [a - b] *)
Definition sub (a b : Q) : Q := round (a - b).

(** [a * b] *)
Definition mul (a b : Q) : Q := round (a * b).

(** [a / b] *)
Definition truediv (a b : Q) : result Q :=
  if Qeq_bool b 0 then Raise ZeroDivisionError else Ok (round (a / b)).

End Binary64.

(** ** The centrality engine: [networkx.algorithms.centrality.degree_alg]

    [[
    def in_degree_centrality(G):
        if len(G) <= 1:
            return {n: 1 for n in G}
        s = 1.0 / (len(G) - 1.0)
        centrality = {n: d * s for n, d in G.in_degree()}
        return centrality
    ]]
    [len(G) - 1.0] and [d * s] convert the integer to a float first. *)

Definition score_table : Type := Dict.dict Q.

(** [1.0 / (n - 1.0)] *)
Definition scale (n : nat) : result Q :=
  Binary64.truediv 1 (Binary64.sub (Binary64.of_int (Z.of_nat n)) 1).

Definition in_degree_centrality (g : DiGraph.t) : result score_table :=
  if (DiGraph.number_of_nodes g <=? 1)%nat
  then Ok (Dict.of_items (map (fun n => (n, 1%Q)) (DiGraph.nodes g)))
  else
    let* s := scale (DiGraph.number_of_nodes g) in
    let* degs := DiGraph.in_degree g in
    Ok (Dict.of_items
          (map (fun '(n, d) => (n, Binary64.mul (Binary64.of_int (Z.of_nat d)) s)) degs)).

(** ** PageRank and eigenvector centrality: guards, loop and result

    [nx.pagerank(G)] with its defaults [alpha=0.85], [max_iter=100],
    [tol=1e-06]:
    [[
    def _pagerank_scipy(G, alpha, personalization, max_iter, tol, nstart,
                        weight, dangling):
        N = len(G)
        if N == 0:
            return {}
        nodelist = list(G)
        A = nx.to_scipy_sparse_array(G, nodelist=nodelist, weight=weight,
                                     dtype=float)
        ...
        x = np.repeat(1.0 / N, N)
        p = np.repeat(1.0 / N, N)
        dangling_weights = p
        is_dangling = np.where(S == 0)[0]
        for _ in range(max_iter):
            xlast = x
            x = alpha * (x @ A + sum(x[is_dangling]) * dangling_weights)
                + (1 - alpha) * p
            err = np.absolute(x - xlast).sum()
            if err < N * tol:
                return dict(zip(nodelist, map(float, x)))
        raise nx.PowerIterationFailedConvergence(max_iter)
    ]]
    [nx.eigenvector_centrality_numpy(G)] with its defaults:
    [[
    def eigenvector_centrality_numpy(G, weight=None, max_iter=50, tol=0):
        if len(G) == 0:
            raise nx.NetworkXPointlessConcept(
                'cannot compute centrality for the null graph')
        M = nx.to_scipy_sparse_array(G, nodelist=list(G), weight=weight,
                                     dtype=float)
        _, eigenvector = sp.sparse.linalg.eigs(M.T, k=1, which='LR',
                                               maxiter=max_iter, tol=tol)
        largest = eigenvector.flatten().real
        norm = np.sign(largest.sum()) * sp.linalg.norm(largest)
        return dict(zip(G, (largest / norm).tolist()))
    ]]
    The numbers are numpy doubles, infinities and NaN included; their
    arithmetic is not embedded.  The type of the numbers, the sweep of the
    power iteration, its convergence test, the eigen-solver and the
    normalisation are parameters; the guards, the loop and the construction
    of the dictionary are those of the source. *)

Module Spectral.

Section Kernels.

(** numpy doubles *)
Variable F : Type.

(** [1.0 / N] *)
Variable uniform : nat -> F.

(** [alpha * (x @ A + sum(x[is_dangling]) * dangling_weights)
     + (1 - alpha) * p] on the matrix of the graph *)
Variable sweep : DiGraph.t -> list F -> list F.

(** [np.absolute(x - xlast).sum() < N * tol] *)
Variable close_enough : nat -> list F -> list F -> bool.

(** [sp.sparse.linalg.eigs(M.T, k=1, which=LR, maxiter=50, tol=0)] on the
    matrix of the graph, then [eigenvector.flatten().real]; the solver
    raises [ArpackNoConvergence] when it gives up and [TypeError] on a
    matrix of fewer than three rows. *)
Variable eigs : DiGraph.t -> result (list F).

(** [(largest / norm).tolist()] *)
Variable normalised : list F -> list F.





End Kernels.

End Spectral.

(** ** Ranking: [sorted(scores.items(), key=operator.itemgetter(1),
    reverse=True)[:k]]

    [sorted] compares keys with [<] only and is stable; with [reverse=True]
    the result is descending and items of equal key keep their input order.
    For an order that is total on the keys there is exactly one such
    arrangement, computed here by stable insertion. *)

Module Ranking.

Definition item : Type := (string * Q)%type.

(** [operator.itemgetter(1)] *)
Definition itemgetter1 (it : item) : Q := snd it.

(** [a < b] on scores *)
Definition score_lt (a b : Q) : bool := negb (Qle_bool b a).

(** [x] goes before the first item whose key is not greater than its own. *)
Fixpoint insert_desc (x : item) (l : list item) : list item :=
  match l with
  | [] => [x]
  | y :: r =>
      if score_lt (itemgetter1 x) (itemgetter1 y)
      then y :: insert_desc x r
      else x :: y :: r
  end.

Definition sorted_desc (items : list item) : list item :=
  fold_right insert_desc [] items.

(** [l[:k]]: a negative [k] counts from the end. *)
Definition slice_to {A : Type} (k : Z) (l : list A) : list A :=
  if (k <? 0)%Z
  then firstn (length l - Z.to_nat (- k)) l
  else firstn (Z.to_nat k) l.

Definition top_k (scores : score_table) (k : Z) : list item :=
  slice_to k (sorted_desc scores).

(** Descending order: [a] may stand before [b]. *)
Definition ge_item (a b : item) : Prop := (itemgetter1 b <= itemgetter1 a)%Q.

End Ranking.

(** ** Python [int(s)] on a string

    On an ASCII string: leading and trailing blanks are skipped, the blanks
    of C's [isspace] (TAB, LF, VT, FF, CR and the space; not the separators
    FS, GS, RS, US that [str.strip] also drops); an optional sign is followed
    by decimal digits, in which single underscores may separate digits.  A
    literal of more than [int_max_str_digits] digits is refused (the
    interpreter's default limit; the notebook's kernel is CPython 3.12).
    A string with a byte above 127 never parses here; on such strings [int]
    also accepts the decimal digits and blanks of other scripts, which are
    not embedded, so the properties of [int] are stated for ASCII ids. *)

Module PyInt.
Import PyStr.

Definition underscore : ascii := "_"%char.

(** [Py_ISSPACE] *)
Definition is_blank (c : ascii) : bool :=
  let n := nat_of_ascii c in
  (((9 <=? n) && (n <=? 13)) || (n =? 32))%nat.

Fixpoint skip_leading (s : string) : string :=
  match s with
  | EmptyString => EmptyString
  | String c r => if is_blank c then skip_leading r else s
  end.

Fixpoint skip_trailing (s : string) : string :=
  match s with
  | EmptyString => EmptyString
  | String c r =>
      match skip_trailing r with
      | EmptyString => if is_blank c then EmptyString else String c EmptyString
      | r' => String c r'
      end
  end.

Fixpoint digits (acc : Z) (after_underscore : bool) (s : string) : option Z :=
  match s with
  | EmptyString => if after_underscore then None else Some acc
  | String c r =>
      if is_digit c then digits (10 * acc + digit_val c)%Z false r
      else if Ascii.eqb c underscore
           then if after_underscore then None else digits acc true r
           else None
  end.

Fixpoint count_digits (s : string) : nat :=
  match s with
  | EmptyString => O
  | String c r => if is_digit c then S (count_digits r) else count_digits r
  end.

Definition int_max_str_digits : nat := 4300.

Definition unsigned (body : string) : option Z :=
  match body with
  | EmptyString => None
  | String c r =>
      if is_digit c
      then match digits (digit_val c) false r with
           | Some n =>
               if (int_max_str_digits <? count_digits body)%nat then None
               else Some n
           | None => None
           end
      else None
  end.

Definition parse (s : string) : option Z :=
  match skip_trailing (skip_leading s) with
  | String "+" body => unsigned body
  | String "-" body => option_map Z.opp (unsigned body)
  | body => unsigned body
  end.

(** [int(s)] *)
Definition int (s : string) : result Z :=
  match parse s with
  | Some z => Ok z
  | None => Raise (ValueError s)
  end.

(** [[int(id) for id in ids]]: the first literal that does not parse
    raises. *)
Fixpoint ints (ids : list string) : result (list Z) :=
  match ids with
  | [] => Ok []
  | id :: r =>
      let* z := int id in
      let* zs := ints r in
      Ok (z :: zs)
  end.

End PyInt.

(** ** Data frames (pandas)

    A frame has column names and rows; a row carries its index label and one
    cell per column.  Frames are objects: the session's heap maps object
    identities to frames, and every selection allocates a new frame that owns
    its data (selection by a boolean mask and by a list of columns copy what
    they select; [copy()] is deep by default).  The column names of a frame
    are distinct, as [read_csv] and [merge] make them. *)

Module Frame.

Inductive cell : Type :=
| Int (z : Z)
| Str (s : string)
| NaN.

Definition row : Type := (Z * list cell)%type.

Record DataFrame : Type := mkDataFrame {
  columns : list string;
  rows : list row
}.

Definition cell_eqb (a b : cell) : bool :=
  match a, b with
  | Int x, Int y => Z.eqb x y
  | Str x, Str y => String.eqb x y
  | _, _ => false
  end.

(** Position of a column name. *)
Fixpoint position (c : string) (cs : list string) : option nat :=
  match cs with
  | [] => None
  | c' :: r =>
      if String.eqb c' c then Some O
      else option_map S (position c r)
  end.

Definition cell_at (i : nat) (r : row) : cell := nth i (snd r) NaN.

(** [df[c]] for a column name: the series of that column. *)
Definition getitem_col (c : string) (df : DataFrame) : result (list (Z * cell)) :=
  match position c (columns df) with
  | Some i => Ok (map (fun r => (fst r, cell_at i r)) (rows df))
  | None => Raise (KeyError c)
  end.

(** [series.isin(values)] for a list of Python integers. *)
Definition isin (series : list (Z * cell)) (values : list Z) : list (Z * bool) :=
  map (fun '(i, c) => (i, existsb (fun z => cell_eqb c (Int z)) values)) series.

(** [df[mask]] for a boolean series computed from [df] itself: the rows
    whose mask entry is [True]. *)
Definition getitem_mask (mask : list (Z * bool)) (df : DataFrame) : DataFrame :=
  {| columns := columns df;
     rows := map fst (List.filter (fun '(_, (_, b)) => b) (combine (rows df) mask)) |}.

(** The rows kept by the mask [df[c].isin(values)], [c] at position [i]. *)
Definition select (zs : list Z) (i : nat) (rs : list row) : list row :=
  List.filter (fun r => existsb (fun z => cell_eqb (cell_at i r) (Int z)) zs) rs.

(** [Index.unique()]: each name at its first place. *)
Definition unique (l : list string) : list string :=
  rev (nodup string_dec (rev l)).

(** [columns.get_indexer_for(key)]; [None] stands for the -1 of a name that
    is not a column. *)
Definition get_indexer (cs all : list string) : list (option nat) :=
  map (fun c => position c all) cs.

(** The names of [key] that the indexer marks as missing. *)
Definition not_found (cs all : list string) : list string :=
  List.filter (fun c => match position c all with
                        | None => true
                        | Some _ => false
                        end) cs.

Definition found (indexer : list (option nat)) : list nat :=
  flat_map (fun o => match o with Some i => [i] | None => [] end) indexer.

(** [columns._get_indexer_strict(key, COLUMNS)]
    [[
    def _raise_if_missing(self, key, indexer, axis_name):
        if len(key) == 0:
            return
        missing_mask = indexer < 0
        nmissing = missing_mask.sum()
        if nmissing:
            if nmissing == len(indexer):
                raise KeyError(f'None of [{key}] are in the [{axis_name}]')
            not_found = list(ensure_index(key)[missing_mask.nonzero()[0]].unique())
            raise KeyError(f'{not_found} not in index')
    ]] *)
Definition positions (cs all : list string) : result (list nat) :=
  match not_found cs all with
  | [] => Ok (found (get_indexer cs all))
  | missing =>
      if (length missing =? length cs)%nat
      then Raise (KeyErrorNoneInColumns cs)
      else Raise (KeyErrorNotInIndex (unique missing))
  end.

(** [df[cols]] for a list of column names. *)
Definition getitem_cols (cs : list string) (df : DataFrame) : result DataFrame :=
  let* ps := positions cs (columns df) in
  Ok {| columns := cs;
        rows := map (fun r => (fst r, map (fun i => cell_at i r) ps)) (rows df) |}.

End Frame.

(** ** The session: objects and the report

    [[
    cols=["PATENT","GYEAR","COMPNAME"]
    def lookup(patent_ids):
        df=pat_data[pat_data["PATENT"].isin([int(id) for id in patent_ids])]
        return df[cols].copy()
    ]] *)

Module Session.

Abbreviation loc := positive.
Abbreviation heap := (gmap positive Frame.DataFrame).

(** Computations on the heap that may raise. *)
Definition M (A : Type) : Type := heap -> result A * heap.

Definition bind {A B : Type} (m : M A) (k : A -> M B) : M B :=
  fun h => match m h with
           | (Ok a, h') => k a h'
           | (Raise e, h') => (Raise e, h')
           end.
Definition lift {A : Type} (r : result A) : M A := fun h => (r, h).

(** A new object. *)
Definition alloc (f : Frame.DataFrame) : M loc :=
  fun h => let l := fresh (dom h) in (Ok l, <[l := f]> h).

(** The object a name is bound to. *)
Definition deref (name : string) (l : loc) : M Frame.DataFrame :=
  fun h => match h !! l with
           | Some f => (Ok f, h)
           | None => (Raise (NameError name), h)
           end.

Definition cols : list string := ["PATENT"; "GYEAR"; "COMPNAME"].

Definition lookup (pat_data : loc) (patent_ids : list string) : M loc :=
  bind (deref "pat_data" pat_data) (fun table =>
  bind (lift (Frame.getitem_col "PATENT" table)) (fun patent =>
  bind (lift (PyInt.ints patent_ids)) (fun ids =>
  bind (alloc (Frame.getitem_mask (Frame.isin patent ids) table)) (fun df =>
  bind (deref "df" df) (fun selected =>
  bind (lift (Frame.getitem_cols cols selected)) (fun projected =>
  bind (alloc projected) (fun view =>
  bind (deref "df[cols]" view) (fun data =>
  alloc data)))))))).

End Session.

(** What the specification says [lookup] returns: the rows of the table whose
    patent id is the value of some input id, in table order, each reduced to
    its index label and the cells of the three report columns. *)
Module Report.
Import Frame.

Definition matches (ids : list string) (iP : nat) (r : row) : bool :=
  match cell_at iP r with
  | Int p =>
      existsb (fun id => match PyInt.parse id with
                         | Some z => Z.eqb z p
                         | None => false
                         end) ids
  | _ => false
  end.

Definition project (iP iG iC : nat) (r : row) : row :=
  (fst r, [cell_at iP r; cell_at iG r; cell_at iC r]).

Definition expected (ids : list string) (iP iG iC : nat) (table : Frame.DataFrame) : Frame.DataFrame :=
  {| columns := ["PATENT"; "GYEAR"; "COMPNAME"];
     rows := map (project iP iG iC) (List.filter (matches ids iP) (rows table)) |}.

End Report.

(** ** Sample inputs *)

Module Sample.
Import Frame.

Definition ln (s : string) : string := s ++ String PyStr.nl EmptyString.

(** The edge list of the end-to-end scenario. *)
Definition edges_text : string := ln "A,B" ++ ln "B,C" ++ ln "C,A" ++ ln "D,A".

Definition scores : score_table :=
  [("A", 2 # 3); ("B", 1 # 3); ("C", 1 # 3); ("D", 0 # 3)]%Q.

(** A patent table after the merge with the assignee names. *)
Definition table : Frame.DataFrame :=
  {| columns := ["PATENT"; "GYEAR"; "ASSIGNEE"; "COMPNAME"];
     rows := [(0%Z, [Int 3953566; Int 1976; Int 1; Str "W. L. GORE"]);
              (1%Z, [Int 3226052; Int 1965; NaN; NaN]);
              (2%Z, [Int 4723129; Int 1988; Int 2; Str "CANON"])] |}.

Definition pat_data : Session.loc := 1%positive.



Definition heap : Session.heap := {[ pat_data := table ]}.

End Sample.

(** ** Size of the graph

    The notebook prints [G.number_of_nodes(), G.number_of_edges(),
    nx.density(G)]; the two counts are embedded.
    [[
    class DiDegreeView:
        def __iter__(self):
            for n in self._nodes:
                succs = self._succ[n]
                preds = self._pred[n]
                yield (n, len(succs) + len(preds))

    def size(self, weight=None):
        s = sum(d for v, d in self.degree(weight=weight))
        return s // 2 if weight is None else s / 2

    def number_of_edges(self, u=None, v=None):
        if u is None:
            return int(self.size())

    ]] *)

Module GraphStats.
Import Dict DiGraph.

(** [G.degree()] *)
Fixpoint degree_of (ns : list string) (succ pred : dict (dict unit))
  : result (list (string * nat)) :=
  match ns with
  | [] => Ok []
  | n :: r =>
      let* succs := getitem n succ in
      let* preds := getitem n pred in
      let* rest := degree_of r succ pred in
      Ok ((n, (length succs + length preds)%nat) :: rest)
  end.

Definition degree (g : DiGraph.t) : result (list (string * nat)) :=
  degree_of (nodes g) (_succ g) (_pred g).

(** [sum(d for v, d in degrees)] *)
Definition sum_degrees (degs : list (string * nat)) : nat :=
  list_sum (map snd degs).

(** [G.size()] *)
Definition size (g : DiGraph.t) : result nat :=
  let* degs := degree g in
  Ok (Nat.div (sum_degrees degs) 2).

(** [G.number_of_edges()] *)
Definition number_of_edges (g : DiGraph.t) : result nat := size g.

End GraphStats.

(** ** The cells of the notebook that rank and report

    [[
    top_deg_centrality= sorted(nx.in_degree_centrality(G).items(),
                               key=operator.itemgetter(1),reverse=True)[:10]
    lookup([id for id,_ in top_deg_centrality])
    ]] *)

Module Notebook.

Definition top_deg_centrality (g : DiGraph.t) : result (list Ranking.item) :=
  let* scores := in_degree_centrality g in
  Ok (Ranking.top_k scores 10).

(** [[id for id,_ in top]] *)
Definition ids_of (top : list Ranking.item) : list string := map fst top.

Definition report (g : DiGraph.t) (pat_data : Session.loc) : Session.M Session.loc :=
  Session.bind (Session.lift (top_deg_centrality g)) (fun top =>
  Session.lookup pat_data (ids_of top)).

End Notebook.

(** ** Words used to state the properties of the reader *)

Module Reading.

(** The identifiers of a file in reading order: the fields of the lines
    that are not skipped. *)
Definition tokens (comments delimiter : ascii) (lines : list string) : list string :=
  flat_map (fun line => if AdjList.skipped comments line then []
                        else AdjList.fields comments delimiter line) lines.

(** A list without its repetitions, each element at its first place. *)
Definition first_occurrences (l : list string) : list string :=
  rev (nodup string_dec (rev l)).

(** One more identifier read: it goes last unless it was seen before. *)
Definition append_new (seen : list string) (x : string) : list string :=
  if in_dec string_dec x seen then seen else seen ++ [x].

(** Every field of every line that is read is an integer literal. *)
Definition integer_fields (comments delimiter : ascii) (lines : list string) : Prop :=
  forall id, In id (tokens comments delimiter lines) -> PyInt.parse id <> None.

End Reading.

(** * Properties *)

(** ** Strings and integer literals *)

Module PyStrFacts.
Import PyStr.

Example split_three : split comma "1,2,3" = ["1"; "2"; "3"].
Proof. reflexivity. Qed.

Example split_keeps_empty_fields : split comma ",a," = [EmptyString; "a"; EmptyString].
Proof. reflexivity. Qed.

Example strip_both_ends : strip "  a b " = "a b".
Proof. reflexivity. Qed.

Example find_quote : find dquote (String "1" (String dquote "2")) = 1%Z.
Proof. reflexivity. Qed.

Example find_absent : find dquote "4723129,3953566" = (-1)%Z.
Proof. reflexivity. Qed.

(** The lines of a text, put end to end, are the text. *)
Lemma readlines_concat (s : string) :
  fold_right String.append EmptyString (readlines s) = s.
Proof.
  induction s as [|c r IH]; [reflexivity|].
  cbn [readlines]. destruct (Ascii.eqb c nl).
  - rewrite <- IH at 2. reflexivity.
  - destruct (readlines r) as [|l ls]; rewrite <- IH; reflexivity.
Qed.

(** *** Integer literals are ASCII *)

Lemma blank_ascii c : PyInt.is_blank c = true -> (nat_of_ascii c <? 128)%nat = true.
Proof.
  unfold PyInt.is_blank. intros H. apply Nat.ltb_lt.
  apply orb_true_iff in H. destruct H as [H|H].
  - apply andb_true_iff in H. destruct H as [_ H]. apply Nat.leb_le in H. lia.
  - apply Nat.eqb_eq in H. lia.
Qed.

Lemma digit_ascii c : is_digit c = true -> (nat_of_ascii c <? 128)%nat = true.
Proof.
  unfold is_digit. intros H. apply Nat.ltb_lt.
  apply andb_true_iff in H. destruct H as [_ H]. apply Nat.leb_le in H. lia.
Qed.

Lemma digits_ascii s : forall acc b z,
  PyInt.digits acc b s = Some z -> is_ascii s = true.
Proof.
  induction s as [|c r IH]; intros acc b z H; [reflexivity|].
  cbn [PyInt.digits is_ascii] in *.
  destruct (is_digit c) eqn:D.
  - rewrite (digit_ascii c D). apply (IH _ _ _ H).
  - destruct (Ascii.eqb_spec c PyInt.underscore) as [->|_]; [|discriminate].
    destruct b; [discriminate|]. apply (IH _ _ _ H).
Qed.

Lemma unsigned_ascii body z : PyInt.unsigned body = Some z -> is_ascii body = true.
Proof.
  destruct body as [|c r]; [discriminate|].
  unfold PyInt.unsigned. destruct (is_digit c) eqn:D; [|discriminate].
  destruct (PyInt.digits _ false r) as [n|] eqn:E; [|discriminate].
  intros _. cbn [is_ascii]. rewrite (digit_ascii c D). apply (digits_ascii _ _ _ _ E).
Qed.

Lemma skip_leading_ascii s : is_ascii (PyInt.skip_leading s) = true -> is_ascii s = true.
Proof.
  induction s as [|c r IH]; [reflexivity|].
  cbn [PyInt.skip_leading]. destruct (PyInt.is_blank c) eqn:B; [|tauto].
  intros H. cbn [is_ascii]. now rewrite (blank_ascii c B), IH.
Qed.

Lemma skip_trailing_ascii s : is_ascii (PyInt.skip_trailing s) = true -> is_ascii s = true.
Proof.
  induction s as [|c r IH]; [reflexivity|].
  cbn [PyInt.skip_trailing]. destruct (PyInt.skip_trailing r) as [|c' r'].
  - destruct (PyInt.is_blank c) eqn:B; cbn [is_ascii]; intros H.
    + now rewrite (blank_ascii c B), IH.
    + apply andb_true_iff in H. destruct H as [-> _]. now rewrite IH.
  - cbn [is_ascii] in *. intros H. apply andb_true_iff in H. destruct H as [-> H].
    now rewrite IH.
Qed.

(** A string that [int] accepts here is ASCII: on it the embedding of [int]
    is that of the interpreter. *)
Lemma parse_ascii s z : PyInt.parse s = Some z -> is_ascii s = true.
Proof.
  unfold PyInt.parse. intros H.
  apply skip_leading_ascii, skip_trailing_ascii.
  destruct (PyInt.skip_trailing (PyInt.skip_leading s)) as [|c body];
    [discriminate|].
  destruct (Ascii.eqb_spec c "+") as [->|Hp].
  { cbn [is_ascii]. now rewrite (unsigned_ascii body z H). }
  destruct (Ascii.eqb_spec c "-") as [->|Hm].
  { cbn [is_ascii]. destruct (PyInt.unsigned body) as [n|] eqn:E; [|discriminate].
    now rewrite (unsigned_ascii body n E). }
  apply (unsigned_ascii _ z).
  destruct c as [[] [] [] [] [] [] [] []]; try exact H;
    exfalso; (apply Hp; reflexivity) || (apply Hm; reflexivity).
Qed.

(** The separators FS, GS, RS and US are blanks for [str.strip], not for
    [int]. *)
Example int_separator :
  PyInt.parse (String "028" "3953566") = None
  /\ strip (String "028" "3953566") = "3953566"
  /\ PyInt.parse (String "009" "3953566") = Some 3953566%Z.
Proof. repeat split; reflexivity. Qed.

Example int_examples :
  map PyInt.parse ["12"; " +1_000 "; "-0"; "007"; "4723129"]
  = [Some 12%Z; Some 1000%Z; Some 0%Z; Some 7%Z; Some 4723129%Z]
  /\ map PyInt.parse ["1__0"; "_1"; "1_"; EmptyString; "+"; "abc"; "- 1"; "1.0"; "CITED"]
     = [None; None; None; None; None; None; None; None; None].
Proof. split; reflexivity. Qed.

End PyStrFacts.

(** ** Dictionaries *)

Module DictFacts.
Import Dict.

Lemma get_set {V : Type} (k k' : string) (v : V) (d : dict V) :
  get k' (set k v d) = if String.eqb k k' then Some v else get k' d.
Proof.
  induction d as [|[k0 v0] r IH]; simpl.
  - rewrite String.eqb_sym. reflexivity.
  - destruct (String.eqb k0 k) eqn:E0; simpl.
    + apply String.eqb_eq in E0. subst k0.
      destruct (String.eqb k k'); reflexivity.
    + destruct (String.eqb k0 k') eqn:E1.
      * apply String.eqb_eq in E1. subst k0.
        rewrite String.eqb_sym, E0. reflexivity.
      * exact IH.
Qed.

Lemma get_set_eq {V : Type} (k : string) (v : V) (d : dict V) :
  get k (set k v d) = Some v.
Proof. rewrite get_set, String.eqb_refl. reflexivity. Qed.

Lemma get_set_ne {V : Type} (k k' : string) (v : V) (d : dict V) :
  k <> k' -> get k' (set k v d) = get k' d.
Proof.
  intros H. rewrite get_set. apply String.eqb_neq in H. now rewrite H.
Qed.

Lemma mem_set {V : Type} (k k' : string) (v : V) (d : dict V) :
  mem k' (set k v d) = String.eqb k k' || mem k' d.
Proof. unfold mem. rewrite get_set. destruct (String.eqb k k'); reflexivity. Qed.

Lemma get_Some_keys {V : Type} (k : string) (v : V) (d : dict V) :
  get k d = Some v -> In k (keys d).
Proof.
  induction d as [|[k0 v0] r IH]; simpl; [discriminate|].
  destruct (String.eqb k0 k) eqn:E.
  - apply String.eqb_eq in E. now left.
  - intros H. right. now apply IH.
Qed.

Lemma keys_get_Some {V : Type} (k : string) (d : dict V) :
  In k (keys d) -> exists v, get k d = Some v.
Proof.
  induction d as [|[k0 v0] r IH]; simpl; [tauto|].
  intros [->|H].
  - rewrite String.eqb_refl. now exists v0.
  - destruct (String.eqb k0 k); [now exists v0|now apply IH].
Qed.

Lemma mem_keys {V : Type} (k : string) (d : dict V) :
  mem k d = true <-> In k (keys d).
Proof.
  unfold mem. split.
  - destruct (get k d) as [v|] eqn:E; [|discriminate].
    intros _. eapply get_Some_keys; exact E.
  - intros H. apply keys_get_Some in H. destruct H as [v ->]. reflexivity.
Qed.

Lemma mem_false_keys {V : Type} (k : string) (d : dict V) :
  mem k d = false <-> ~ In k (keys d).
Proof.
  rewrite <- mem_keys. destruct (mem k d); split; intros; congruence.
Qed.

Lemma keys_set_old {V : Type} (k : string) (v : V) (d : dict V) :
  In k (keys d) -> keys (set k v d) = keys d.
Proof.
  induction d as [|[k0 v0] r IH]; simpl; [tauto|].
  destruct (String.eqb k0 k) eqn:E; simpl; [reflexivity|].
  intros [->|H]; [rewrite String.eqb_refl in E; discriminate|].
  f_equal. apply IH, H.
Qed.

Lemma set_new {V : Type} (k : string) (v : V) (d : dict V) :
  ~ In k (keys d) -> set k v d = d ++ [(k, v)].
Proof.
  induction d as [|[k0 v0] r IH]; simpl; [reflexivity|].
  intros H. destruct (String.eqb k0 k) eqn:E.
  - apply String.eqb_eq in E. tauto.
  - rewrite IH; [reflexivity|tauto].
Qed.

Lemma keys_set_new {V : Type} (k : string) (v : V) (d : dict V) :
  ~ In k (keys d) -> keys (set k v d) = keys d ++ [k].
Proof.
  intros H. rewrite set_new by exact H. unfold keys. now rewrite map_app.
Qed.

Lemma length_set_old {V : Type} (k : string) (v : V) (d : dict V) :
  In k (keys d) -> length (set k v d) = length d.
Proof.
  intros H. apply keys_set_old with (v := v) in H.
  unfold keys in H. apply (f_equal (@length string)) in H.
  now rewrite !length_map in H.
Qed.

Lemma in_keys_set {V : Type} (k k' : string) (v : V) (d : dict V) :
  In k' (keys (set k v d)) <-> k' = k \/ In k' (keys d).
Proof.
  rewrite <- !mem_keys, mem_set, orb_true_iff, String.eqb_eq.
  split; intros [H|H]; auto.
Qed.

Lemma NoDup_keys_set {V : Type} (k : string) (v : V) (d : dict V) :
  List.NoDup (keys d) -> List.NoDup (keys (set k v d)).
Proof.
  intros H. destruct (in_dec string_dec k (keys d)) as [Hin|Hnin].
  - now rewrite keys_set_old.
  - rewrite keys_set_new by exact Hnin.
    apply List.NoDup_app; [exact H|repeat constructor; simpl; tauto|].
    intros a Ha [<-|[]]. tauto.
Qed.

(** A dictionary comprehension over distinct keys lists its items in order. *)
Lemma of_items_NoDup {V : Type} (items : list (string * V)) :
  List.NoDup (map fst items) -> of_items items = items.
Proof.
  unfold of_items.
  assert (G : forall acc : dict V,
             List.NoDup (keys acc ++ map fst items) ->
             fold_left (fun d '(k, v) => set k v d) items acc = acc ++ items).
  { induction items as [|[k v] r IH]; intros acc H; simpl.
    - now rewrite app_nil_r.
    - rewrite IH.
      + rewrite set_new; [now rewrite <- app_assoc|].
        simpl in H. apply List.NoDup_remove_2 in H.
        intros Hin. apply H. apply in_or_app. now left.
      + simpl in H. rewrite keys_set_new.
        * rewrite <- app_assoc. exact H.
        * apply List.NoDup_remove_2 in H.
          intros Hin. apply H. apply in_or_app. now left. }
  intros H. apply (G []). exact H.
Qed.

End DictFacts.

(** ** Directed graphs *)

Module DiGraphFacts.
Import Dict DictFacts DiGraph.

Lemma wf_empty : wf empty.
Proof.
  split; simpl; try reflexivity; try constructor; try discriminate.
Qed.

Lemma in_succ_nodes g u : wf g -> (In u (keys (_succ g)) <-> In u (nodes g)).
Proof. intros W. unfold nodes. now rewrite (wf_succ_keys g W). Qed.

Lemma in_pred_nodes g u : wf g -> (In u (keys (_pred g)) <-> In u (nodes g)).
Proof. intros W. unfold nodes. now rewrite (wf_pred_keys g W). Qed.

Lemma has_edge_source g u v : wf g -> has_edge u v g = true -> In u (nodes g).
Proof.
  intros W H. unfold has_edge in H.
  destruct (get u (_succ g)) as [nb|] eqn:E; [|discriminate].
  apply in_succ_nodes; [exact W|]. eapply get_Some_keys; exact E.
Qed.

(** *** [add_node] *)

Lemma add_node_old u g :
  wf g -> In u (nodes g) -> add_node u g = g.
Proof.
  intros W H. unfold add_node.
  apply (in_succ_nodes g u W), mem_keys in H. now rewrite H.
Qed.

Lemma add_node_has_edge u g a b :
  wf g -> has_edge a b (add_node u g) = has_edge a b g.
Proof.
  intros W. unfold add_node. destruct (mem u (_succ g)) eqn:E; [reflexivity|].
  unfold has_edge, mem in *. cbn [_succ]. rewrite get_set.
  destruct (String.eqb u a) eqn:Ea; [|reflexivity].
  apply String.eqb_eq in Ea. subst a.
  destruct (get u (_succ g)); [discriminate|reflexivity].
Qed.

Lemma add_node_has_pred u g a b :
  wf g -> has_pred b a (add_node u g) = has_pred b a g.
Proof.
  intros W. unfold add_node. destruct (mem u (_succ g)) eqn:E; [reflexivity|].
  assert (Hp : get u (_pred g) = None).
  { destruct (get u (_pred g)) as [x|] eqn:Ex; [|reflexivity].
    apply get_Some_keys in Ex. rewrite (wf_pred_keys g W), <- (wf_succ_keys g W) in Ex.
    apply mem_keys in Ex. congruence. }
  unfold has_pred. cbn [_pred]. rewrite get_set.
  destruct (String.eqb u b) eqn:Eb; [|reflexivity].
  apply String.eqb_eq in Eb. subst b. now rewrite Hp.
Qed.

Lemma add_node_nodes u g n :
  wf g -> (In n (nodes (add_node u g)) <-> n = u \/ In n (nodes g)).
Proof.
  intros W. unfold add_node. destruct (mem u (_succ g)) eqn:E.
  - apply mem_keys, (in_succ_nodes g u W) in E.
    split; [auto|]. intros [->|H]; assumption.
  - unfold nodes. cbn [_node]. apply in_keys_set.
Qed.

Lemma add_node_wf u g : wf g -> wf (add_node u g).
Proof.
  intros W. pose proof (add_node_has_edge u g) as He.
  pose proof (add_node_has_pred u g) as Hp.
  pose proof (add_node_nodes u g) as Hn.
  unfold add_node in *. destruct (mem u (_succ g)) eqn:E; [exact W|].
  assert (Hs : ~ In u (keys (_succ g))) by now apply mem_false_keys.
  assert (Hnd : ~ In u (keys (_node g))) by now rewrite <- (wf_succ_keys g W).
  assert (Hpd : ~ In u (keys (_pred g))) by now rewrite (wf_pred_keys g W).
  split; cbn [_node _succ _pred].
  - rewrite !keys_set_new by assumption. now rewrite (wf_succ_keys g W).
  - rewrite !keys_set_new by assumption. now rewrite (wf_pred_keys g W).
  - apply NoDup_keys_set, (wf_nodup g W).
  - intros a b. rewrite (He a b W), (Hp a b W). apply (wf_sym g W).
  - intros a nb. rewrite get_set. destruct (String.eqb u a).
    + intros H. inversion H. constructor.
    + apply (wf_succ_nodup g W).
  - intros a pb. rewrite get_set. destruct (String.eqb u a).
    + intros H. inversion H. constructor.
    + apply (wf_pred_nodup g W).
  - intros a b H. rewrite (He a b W) in H.
    apply (Hn b W). right. apply (wf_closed g W a b H).
Qed.

(** *** [add_edge] *)

Lemma link_has_edge u v g su pv a b :
  get u (_succ g) = Some su ->
  has_edge a b {| _node := _node g;
                  _succ := set u (set v tt su) (_succ g);
                  _pred := set v (set u tt pv) (_pred g) |}
  = (String.eqb u a && String.eqb v b) || has_edge a b g.
Proof.
  intros Hsu. unfold has_edge. cbn [_succ]. rewrite get_set.
  destruct (String.eqb u a) eqn:Ea; [|reflexivity].
  apply String.eqb_eq in Ea. subst a. rewrite Hsu, mem_set. reflexivity.
Qed.

Lemma link_has_pred u v g su pv a b :
  get v (_pred g) = Some pv ->
  has_pred b a {| _node := _node g;
                  _succ := set u (set v tt su) (_succ g);
                  _pred := set v (set u tt pv) (_pred g) |}
  = (String.eqb u a && String.eqb v b) || has_pred b a g.
Proof.
  intros Hpv. unfold has_pred. cbn [_pred]. rewrite get_set.
  destruct (String.eqb v b) eqn:Eb.
  - apply String.eqb_eq in Eb. subst b. rewrite Hpv, mem_set.
    now rewrite andb_true_r.
  - now rewrite andb_false_r.
Qed.

Lemma link_wf u v g su pv :
  wf g ->
  get u (_succ g) = Some su ->
  get v (_pred g) = Some pv ->
  wf {| _node := _node g;
        _succ := set u (set v tt su) (_succ g);
        _pred := set v (set u tt pv) (_pred g) |}.
Proof.
  intros W Hsu Hpv.
  pose proof (get_Some_keys _ _ _ Hsu) as Hu.
  pose proof (get_Some_keys _ _ _ Hpv) as Hv.
  split; cbn [_node].
  - cbn [_succ]. rewrite keys_set_old by exact Hu. apply (wf_succ_keys g W).
  - cbn [_pred]. rewrite keys_set_old by exact Hv. apply (wf_pred_keys g W).
  - apply (wf_nodup g W).
  - intros a b. rewrite (link_has_edge u v g su pv a b Hsu).
    rewrite (link_has_pred u v g su pv a b Hpv). f_equal. apply (wf_sym g W).
  - intros a nb. cbn [_succ]. rewrite get_set. destruct (String.eqb u a).
    + intros H. inversion H. apply NoDup_keys_set, (wf_succ_nodup g W u su Hsu).
    + apply (wf_succ_nodup g W).
  - intros a pb. cbn [_pred]. rewrite get_set. destruct (String.eqb v a).
    + intros H. inversion H. apply NoDup_keys_set, (wf_pred_nodup g W v pv Hpv).
    + apply (wf_pred_nodup g W).
  - intros a b. rewrite (link_has_edge u v g su pv a b Hsu).
    intros H. apply orb_true_iff in H. destruct H as [H|H].
    + apply andb_true_iff in H. destruct H as [_ H]. apply String.eqb_eq in H.
      subst b. now rewrite <- (wf_pred_keys g W).
    + apply (wf_closed g W a b H).
Qed.

Lemma add_edge_spec u v g :
  wf g ->
  exists g',
    add_edge u v g = Ok g'
    /\ wf g'
    /\ (forall n, In n (nodes g') <-> n = u \/ n = v \/ In n (nodes g))
    /\ (forall a b, has_edge a b g'
                    = (String.eqb u a && String.eqb v b) || has_edge a b g).
Proof.
  intros W. unfold add_edge.
  pose proof (add_node_wf v _ (add_node_wf u g W)) as W2.
  pose proof (fun n => add_node_nodes v (add_node u g) n (add_node_wf u g W)) as N2.
  pose proof (fun n => add_node_nodes u g n W) as N1.
  pose proof (fun a b => add_node_has_edge v (add_node u g) a b (add_node_wf u g W)) as E2.
  pose proof (fun a b => add_node_has_edge u g a b W) as E1.
  set (g2 := add_node v (add_node u g)) in *.
  assert (Hu : In u (nodes g2)) by (apply N2; right; apply N1; now left).
  assert (Hv : In v (nodes g2)) by (apply N2; now left).
  apply (in_succ_nodes g2 u W2), keys_get_Some in Hu. destruct Hu as [su Hsu].
  apply (in_pred_nodes g2 v W2), keys_get_Some in Hv. destruct Hv as [pv Hpv].
  unfold getitem. rewrite Hsu. cbn [rbind _pred _node _succ]. rewrite Hpv. cbn [rbind].
  eexists. split; [reflexivity|]. split; [|split].
  - apply link_wf; assumption.
  - intros n. unfold nodes at 1. cbn [_node]. fold (nodes g2).
    rewrite N2, N1. tauto.
  - intros a b. rewrite (link_has_edge u v g2 su pv a b Hsu), E2, E1. reflexivity.
Qed.

(** *** [add_edges_from] *)

Lemma add_edges_from_spec u vlist g :
  wf g -> In u (nodes g) ->
  exists g',
    add_edges_from u vlist g = Ok g'
    /\ wf g'
    /\ (forall n, In n (nodes g') <-> In n vlist \/ In n (nodes g))
    /\ (forall a b, has_edge a b g' = true
                    <-> (a = u /\ In b vlist) \/ has_edge a b g = true).
Proof.
  revert g. induction vlist as [|v vs IH]; intros g W Hu; simpl.
  - exists g. split; [reflexivity|]. split; [exact W|]. split; intros; tauto.
  - destruct (add_edge_spec u v g W) as (g1 & -> & W1 & N1 & E1). cbn [rbind].
    destruct (IH g1 W1) as (g' & -> & W' & N' & E').
    { apply N1. now left. }
    exists g'. split; [reflexivity|]. split; [exact W'|]. split.
    + intros n. rewrite N', N1. split.
      * intros [H|[->|[->|H]]]; auto.
      * intros [[->|H]|H]; auto.
    + intros a b. rewrite E', E1, orb_true_iff, andb_true_iff, !String.eqb_eq.
      split.
      * intros [[-> H]|[[-> ->]|H]]; auto.
      * intros [[-> [->|H]]|H]; auto.
Qed.

(** *** The edge list *)

Lemma in_dict_get {V : Type} (d : dict V) (k : string) (x : V) :
  List.NoDup (keys d) -> (In (k, x) d <-> get k d = Some x).
Proof.
  induction d as [|[k0 v0] r IH]; simpl; intros H.
  - split; [tauto|discriminate].
  - inversion H as [|? ? Hnin Hr]; subst.
    destruct (String.eqb k0 k) eqn:E.
    + apply String.eqb_eq in E. subst k0. split.
      * intros [H1|H1]; [congruence|].
        exfalso. apply Hnin. change k with (fst (k, x)). now apply in_map.
      * intros H1. left. congruence.
    + apply String.eqb_neq in E. rewrite <- (IH Hr). split.
      * intros [H1|H1]; [congruence|exact H1].
      * auto.
Qed.

Lemma in_edges g u v :
  wf g -> (In (u, v) (edges g) <-> has_edge u v g = true).
Proof.
  intros W. unfold edges. rewrite in_flat_map. unfold has_edge. split.
  - intros ([u' nb] & Hin & Huv). unfold out_edges in Huv. cbn [fst snd] in Huv.
    apply in_map_iff in Huv. destruct Huv as (v' & Heq & Hv). inversion Heq; subst.
    apply in_dict_get in Hin; [|rewrite (wf_succ_keys g W); apply (wf_nodup g W)].
    rewrite Hin. now apply mem_keys.
  - destruct (get u (_succ g)) as [nb|] eqn:E; [|discriminate].
    intros Hv. exists (u, nb). split.
    + apply in_dict_get; [rewrite (wf_succ_keys g W); apply (wf_nodup g W)|exact E].
    + unfold out_edges. cbn [fst snd]. apply in_map. now apply mem_keys.
Qed.

Lemma NoDup_flat_out_edges (d : dict (dict unit)) :
  List.NoDup (keys d) ->
  (forall u nb, In (u, nb) d -> List.NoDup (keys nb)) ->
  List.NoDup (flat_map out_edges d).
Proof.
  induction d as [|[u nb] r IH]; simpl; intros Hk Hin; [constructor|].
  inversion Hk as [|? ? Hnin Hr]; subst.
  apply List.NoDup_app.
  - unfold out_edges. cbn [fst snd]. apply Finite.Injective_map_NoDup.
    + intros x y H. now inversion H.
    + apply (Hin u nb). now left.
  - apply IH; [exact Hr|]. intros u' nb' H. apply (Hin u' nb'). now right.
  - intros [a b] Ha Hb. unfold out_edges in Ha. cbn [fst snd] in Ha.
    apply in_map_iff in Ha. destruct Ha as (x & Heq & _). inversion Heq; subst.
    apply in_flat_map in Hb. destruct Hb as ([u' nb'] & Hin' & Hab).
    unfold out_edges in Hab. cbn [fst snd] in Hab.
    apply in_map_iff in Hab. destruct Hab as (y & Heq' & _). inversion Heq'; subst.
    apply Hnin. change a with (fst (a, nb')). now apply in_map.
Qed.

Lemma NoDup_edges g : wf g -> List.NoDup (edges g).
Proof.
  intros W. unfold edges. apply NoDup_flat_out_edges.
  - rewrite (wf_succ_keys g W). apply (wf_nodup g W).
  - intros u nb H. apply (wf_succ_nodup g W u).
    apply in_dict_get; [rewrite (wf_succ_keys g W); apply (wf_nodup g W)|exact H].
Qed.

End DiGraphFacts.

(** ** Rounding *)

Module Binary64Facts.
Import Binary64.
Local Open Scope Q_scope.

(** [lra] and [nra] read [inject_Z z] as a number only when [z] is a
    constant. *)
Ltac hide_inj :=
  repeat match goal with
         | |- context [inject_Z ?z] =>
             let q := fresh "q" in set (q := inject_Z z) in *; clearbody q
         | H : context [inject_Z ?z] |- _ =>
             let q := fresh "q" in set (q := inject_Z z) in *; clearbody q
         end.

Lemma two_nonzero : ~ (2 == 0)%Q.
Proof. discriminate. Qed.

Lemma pow2_pos e : 0 < pow2 e.
Proof. apply Qpower_0_lt. reflexivity. Qed.

Lemma pow2_add a b : pow2 (a + b) == pow2 a * pow2 b.
Proof. apply Qpower_plus, two_nonzero. Qed.

Lemma pow2_sub a b : pow2 (a - b) * pow2 b == pow2 a.
Proof. rewrite <- pow2_add. now replace (a - b + b)%Z with a by lia. Qed.

Lemma pow2_lt a b : (a < b)%Z -> pow2 a < pow2 b.
Proof. intros H. apply Qpower_lt_compat_l; [exact H|reflexivity]. Qed.

Lemma pow2_le a b : (a <= b)%Z -> pow2 a <= pow2 b.
Proof. intros H. apply Qpower_le_compat_l; [exact H|discriminate]. Qed.

Lemma pow2_lt_inv a b : pow2 a < pow2 b -> (a < b)%Z.
Proof. intros H. apply (Qpower_lt_compat_l_inv 2); [exact H|reflexivity]. Qed.

Lemma pow2_Z e : (0 <= e)%Z -> pow2 e == inject_Z (2 ^ e).
Proof. intros H. unfold pow2. now rewrite Zpower_Qpower. Qed.

(** [ilog2 x] is the exponent of [x]. *)
Lemma ilog2_spec x : 0 < x -> pow2 (ilog2 x) <= x /\ x < pow2 (ilog2 x + 1).
Proof.
  intros Hx. destruct x as [n d]. unfold ilog2. cbn [Qnum Qden].
  assert (Hn : (0 < n)%Z) by (unfold Qlt in Hx; simpl in Hx; lia).
  set (ln := Z.log2 n). set (ld := Z.log2 (Z.pos d)).
  assert (Hln : (2 ^ ln <= n < 2 ^ (ln + 1))%Z).
  { pose proof (Z.log2_spec n Hn) as H. now rewrite <- Z.add_1_r in H. }
  assert (Hld : (2 ^ ld <= Z.pos d < 2 ^ (ld + 1))%Z).
  { pose proof (Z.log2_spec (Z.pos d) eq_refl) as H. now rewrite <- Z.add_1_r in H. }
  assert (L0 : (0 <= ln)%Z) by apply Z.log2_nonneg.
  assert (D0 : (0 <= ld)%Z) by apply Z.log2_nonneg.
  set (x := n # d) in *.
  assert (Ex : x * inject_Z (Z.pos d) == inject_Z n).
  { unfold x, Qeq, Qmult, inject_Z. simpl. lia. }
  assert (EA : pow2 (ln - ld) * inject_Z (2 ^ ld) == inject_Z (2 ^ ln)).
  { rewrite <- !pow2_Z by lia. apply pow2_sub. }
  assert (HA : inject_Z (2 ^ ln) <= inject_Z n) by (rewrite <- Zle_Qle; lia).
  assert (HA' : inject_Z n < 2 * inject_Z (2 ^ ln)).
  { change 2 with (inject_Z 2). rewrite <- inject_Z_mult, <- Zlt_Qlt.
    rewrite Z.pow_add_r in Hln by lia. lia. }
  assert (HD : inject_Z (2 ^ ld) <= inject_Z (Z.pos d)) by (rewrite <- Zle_Qle; lia).
  assert (HD' : inject_Z (Z.pos d) < 2 * inject_Z (2 ^ ld)).
  { change 2 with (inject_Z 2). rewrite <- inject_Z_mult, <- Zlt_Qlt.
    rewrite Z.pow_add_r in Hld by lia. lia. }
  assert (P0 : 0 < inject_Z (2 ^ ld)).
  { change 0 with (inject_Z 0). rewrite <- Zlt_Qlt. lia. }
  set (K := pow2 (ln - ld)) in *.
  set (P := inject_Z (2 ^ ld)) in *. set (A := inject_Z (2 ^ ln)) in *.
  set (D := inject_Z (Z.pos d)) in *. set (Nn := inject_Z n) in *.
  assert (K0 : 0 < K) by apply pow2_pos.
  assert (U : x < 2 * K).
  { apply Qnot_le_lt. intros C. nra. }
  assert (Lw : K < 2 * x).
  { apply Qnot_le_lt. intros C. nra. }
  destruct (Qle_bool K x) eqn:E.
  - apply Qle_bool_iff in E. split; [exact E|].
    rewrite pow2_add. change (pow2 1) with 2. fold K. lra.
  - assert (E' : x < K).
    { apply Qnot_le_lt. intros C. apply Qle_bool_iff in C. congruence. }
    replace (ln - ld - 1 + 1)%Z with (ln - ld)%Z by lia. fold K.
    split; [|exact E'].
    assert (EK : pow2 (ln - ld - 1) * 2 == K).
    { change 2 with (pow2 1). apply pow2_sub. }
    lra.
Qed.

Lemma ilog2_unique x k : pow2 k <= x -> x < pow2 (k + 1) -> ilog2 x = k.
Proof.
  intros L U.
  assert (Hx : 0 < x) by (pose proof (pow2_pos k); lra).
  destruct (ilog2_spec x Hx) as [L' U'].
  assert (A : (k < ilog2 x + 1)%Z) by (apply pow2_lt_inv; lra).
  assert (B : (ilog2 x < k + 1)%Z) by (apply pow2_lt_inv; lra).
  lia.
Qed.

Lemma ilog2_compat x y : 0 < x -> x == y -> ilog2 x = ilog2 y.
Proof.
  intros Hx E. destruct (ilog2_spec x Hx) as [L U].
  symmetry. apply ilog2_unique; rewrite <- E; assumption.
Qed.

Lemma ilog2_ge x k : pow2 k <= x -> (k <= ilog2 x)%Z.
Proof.
  intros L.
  assert (Hx : 0 < x) by (pose proof (pow2_pos k); lra).
  destruct (ilog2_spec x Hx) as [_ U].
  assert (A : (k < ilog2 x + 1)%Z) by (apply pow2_lt_inv; lra).
  lia.
Qed.

Lemma ilog2_lt x k : 0 < x -> x < pow2 k -> (ilog2 x < k)%Z.
Proof.
  intros Hx U. destruct (ilog2_spec x Hx) as [L _].
  apply pow2_lt_inv. lra.
Qed.

(** *** Rounding to the nearest integer *)

Lemma rne_compat m m' : m == m' -> rne m = rne m'.
Proof.
  intros E. unfold rne. rewrite (Qfloor_comp m m' E).
  assert (E' : m - inject_Z (Qfloor m') == m' - inject_Z (Qfloor m')) by now rewrite E.
  now rewrite (Qcompare_comp _ _ E' (1 # 2) (1 # 2) (Qeq_refl _)).
Qed.

Lemma rne_floor m : (Qfloor m <= rne m <= Qfloor m + 1)%Z.
Proof.
  unfold rne. destruct (Qcompare _ _); [destruct (Z.even _)| |]; lia.
Qed.

Lemma rne_near m : m - (1 # 2) <= inject_Z (rne m) /\ inject_Z (rne m) <= m + (1 # 2).
Proof.
  pose proof (Qfloor_le m) as L. pose proof (Qlt_floor m) as U.
  rewrite inject_Z_plus in U. change (inject_Z 1) with 1 in U.
  unfold rne. destruct (Qcompare (m - inject_Z (Qfloor m)) (1 # 2)) eqn:C.
  - apply Qeq_alt in C. destruct (Z.even _);
      [|rewrite inject_Z_plus; change (inject_Z 1) with 1]; hide_inj; split; lra.
  - apply Qlt_alt in C. hide_inj. split; lra.
  - apply Qgt_alt in C. rewrite inject_Z_plus. change (inject_Z 1) with 1.
    hide_inj. split; lra.
Qed.

Lemma rne_Z z : rne (inject_Z z) = z.
Proof.
  unfold rne. rewrite Qfloor_Z.
  assert (C : Qcompare (inject_Z z - inject_Z z) (1 # 2) = Lt).
  { apply (proj1 (Qlt_alt _ _)). hide_inj. lra. }
  now rewrite C.
Qed.

Lemma rne_nonneg m : 0 <= m -> (0 <= rne m)%Z.
Proof.
  intros H. pose proof (rne_floor m) as [L _].
  assert (F : (0 <= Qfloor m)%Z).
  { change 0%Z with (Qfloor 0). now apply Qfloor_resp_le. }
  lia.
Qed.

Lemma rne_mono m m' : m <= m' -> (rne m <= rne m')%Z.
Proof.
  intros H. pose proof (Qfloor_resp_le m m' H) as F.
  pose proof (rne_floor m) as [A1 A2]. pose proof (rne_floor m') as [B1 B2].
  destruct (Z.eq_dec (Qfloor m) (Qfloor m')) as [E|E]; [|lia].
  unfold rne in *. rewrite <- E in *.
  destruct (Qcompare (m - inject_Z (Qfloor m)) (1 # 2)) eqn:C;
    destruct (Qcompare (m' - inject_Z (Qfloor m)) (1 # 2)) eqn:C';
    try lia; try (destruct (Z.even (Qfloor m)); lia); exfalso;
    [apply Qeq_alt in C; apply Qlt_alt in C'
    |apply Qgt_alt in C; apply Qeq_alt in C'
    |apply Qgt_alt in C; apply Qlt_alt in C'];
    hide_inj; lra.
Qed.

(** *** Rounding to the nearest double *)

Local Abbreviation u := unit_roundoff.

Lemma round_pos_compat x y : 0 < x -> x == y -> round_pos x == round_pos y.
Proof.
  intros Hx E. unfold round_pos. rewrite <- (ilog2_compat x y Hx E).
  set (e := Z.max _ _).
  assert (E' : x / pow2 e == y / pow2 e) by now rewrite E.
  now rewrite (rne_compat _ _ E').
Qed.

Lemma round_compat x y : x == y -> round x == round y.
Proof.
  intros E. unfold round.
  rewrite (Qcompare_comp x y E 0 0 (Qeq_refl _)).
  destruct (Qcompare y 0) eqn:C.
  - reflexivity.
  - apply Qlt_alt in C. apply Qopp_comp, round_pos_compat; [lra|now rewrite E].
  - apply Qgt_alt in C. apply round_pos_compat; [lra|exact E].
Qed.

Lemma round_0 : round 0 = 0.
Proof. reflexivity. Qed.

Lemma round_positive x : 0 < x -> round x = round_pos x.
Proof. intros H. unfold round. apply Qgt_alt in H. now rewrite H. Qed.

Lemma round_pos_nonneg x : 0 < x -> 0 <= round_pos x.
Proof.
  intros Hx. unfold round_pos. set (e := Z.max _ _).
  apply Qmult_le_0_compat; [|apply Qlt_le_weak, pow2_pos].
  change 0 with (inject_Z 0). rewrite <- Zle_Qle. apply rne_nonneg.
  apply Qle_shift_div_l; [apply pow2_pos|]. lra.
Qed.

Lemma round_nonneg x : 0 <= x -> 0 <= round x.
Proof.
  intros H. destruct (Qlt_le_dec 0 x) as [P|P].
  - rewrite (round_positive x P). now apply round_pos_nonneg.
  - rewrite (round_compat x 0) by lra. apply Qle_refl.
Qed.

(** A number in the normal range keeps 53 significant bits. *)
Lemma round_normal x :
  pow2 (-1022) <= x ->
  let l := ilog2 x in
  exists z : Z,
    round x == inject_Z z * pow2 (l - 52)
    /\ x * pow2 (52 - l) - (1 # 2) <= inject_Z z <= x * pow2 (52 - l) + (1 # 2)
    /\ (2 ^ 52 <= z <= 2 ^ 53)%Z
    /\ z = rne (x * pow2 (52 - l)).
Proof.
  intros Hx l.
  assert (X0 : 0 < x) by (pose proof (pow2_pos (-1022)); lra).
  assert (Hl : (-1022 <= l)%Z) by now apply ilog2_ge.
  destruct (ilog2_spec x X0) as [L U]. fold l in L, U.
  rewrite (round_positive x X0). unfold round_pos. fold l.
  replace (Z.max (l - 52) emin) with (l - 52)%Z by (unfold emin; lia).
  assert (Em : x / pow2 (l - 52) == x * pow2 (52 - l)).
  { unfold Qdiv. apply Qmult_comp; [reflexivity|].
    unfold pow2. rewrite <- Qpower_opp. now replace (- (l - 52))%Z with (52 - l)%Z by lia. }
  rewrite (rne_compat _ _ Em).
  set (m := x * pow2 (52 - l)).
  exists (rne m). split; [reflexivity|]. split; [apply rne_near|]. split; [|reflexivity].
  assert (P : 0 < pow2 (52 - l)) by apply pow2_pos.
  assert (Lm : inject_Z (2 ^ 52) <= m).
  { rewrite <- pow2_Z by lia. rewrite <- (pow2_sub 52 (52 - l)).
    replace (52 - (52 - l))%Z with l by lia. unfold m. nra. }
  assert (Um : m < inject_Z (2 ^ 53)).
  { rewrite <- pow2_Z by lia. rewrite <- (pow2_sub 53 (52 - l)).
    replace (53 - (52 - l))%Z with (l + 1)%Z by lia. unfold m. nra. }
  pose proof (rne_floor m) as [F1 F2].
  assert (G1 : (2 ^ 52 <= Qfloor m)%Z).
  { rewrite <- (Qfloor_Z (2 ^ 52)). now apply Qfloor_resp_le. }
  assert (G2 : (Qfloor m < 2 ^ 53)%Z).
  { rewrite Zlt_Qlt. eapply Qle_lt_trans; [apply Qfloor_le|exact Um]. }
  lia.
Qed.

(** The relative error of rounding in the normal range is at most [u]. *)
Lemma round_relative x :
  pow2 (-1022) <= x -> x * (1 - u) <= round x <= x * (1 + u).
Proof.
  intros Hx. destruct (round_normal x Hx) as (z & E & [N1 N2] & _ & _).
  set (l := ilog2 x) in *.
  assert (X0 : 0 < x) by (pose proof (pow2_pos (-1022)); lra).
  destruct (ilog2_spec x X0) as [L _]. fold l in L.
  rewrite E.
  assert (P : 0 < pow2 (l - 52)) by apply pow2_pos.
  assert (I : pow2 (52 - l) * pow2 (l - 52) == 1).
  { rewrite <- pow2_add. now replace (52 - l + (l - 52))%Z with 0%Z by lia. }
  assert (H : pow2 (l - 52) * (1 # 2) <= x * u).
  { assert (E1 : pow2 (l - 52) * (1 # 2) == pow2 l * u).
    { unfold u. change (1 # 2) with (pow2 (-1)). rewrite <- !pow2_add.
      now replace (l - 52 + -1)%Z with (l + -53)%Z by lia. }
    rewrite E1. assert (0 < u) by apply pow2_pos. nra. }
  set (a := pow2 (52 - l)) in *. set (b := pow2 (l - 52)) in *.
  assert (M1 : (x * a - (1 # 2)) * b <= inject_Z z * b) by nra.
  assert (M2 : inject_Z z * b <= (x * a + (1 # 2)) * b) by nra.
  assert (R : x * a * b == x) by (rewrite <- Qmult_assoc, I; ring).
  split; nra.
Qed.

(** The result of rounding has the exponent of its argument, or is the next
    power of two. *)
Lemma round_binade x :
  pow2 (-1022) <= x ->
  pow2 (ilog2 x) <= round x <= pow2 (ilog2 x + 1).
Proof.
  intros Hx. destruct (round_normal x Hx) as (z & E & _ & [Z1 Z2] & _).
  set (l := ilog2 x) in *. rewrite E.
  assert (P : 0 < pow2 (l - 52)) by apply pow2_pos.
  rewrite <- (pow2_sub l (l - 52)), <- (pow2_sub (l + 1) (l - 52)).
  replace (l - (l - 52))%Z with 52%Z by lia.
  replace (l + 1 - (l - 52))%Z with 53%Z by lia.
  rewrite !pow2_Z by lia.
  rewrite Zle_Qle in Z1, Z2.
  split; (apply Qmult_le_compat_r; [assumption|apply Qlt_le_weak, P]).
Qed.

Lemma round_ge_pow2 x k : (-1022 <= k)%Z -> pow2 k <= x -> pow2 k <= round x.
Proof.
  intros Hk Hx.
  assert (N : pow2 (-1022) <= x) by (pose proof (pow2_le (-1022) k Hk); lra).
  destruct (round_binade x N) as [L _].
  pose proof (pow2_le k (ilog2 x) (ilog2_ge x k Hx)). lra.
Qed.

(** Rounding keeps the order. *)
Lemma round_mono x y : pow2 (-1022) <= x -> x <= y -> round x <= round y.
Proof.
  intros Nx Hxy.
  assert (Ny : pow2 (-1022) <= y) by lra.
  assert (X0 : 0 < x) by (pose proof (pow2_pos (-1022)); lra).
  destruct (ilog2_spec x X0) as [Lx _].
  assert (Hl : (ilog2 x <= ilog2 y)%Z) by (apply ilog2_ge; lra).
  destruct (Z.eq_dec (ilog2 x) (ilog2 y)) as [E|E].
  - destruct (round_normal x Nx) as (zx & Ex & _ & _ & Hzx).
    destruct (round_normal y Ny) as (zy & Ey & _ & _ & Hzy).
    rewrite Ex, Ey, <- E. rewrite <- E in Hzy.
    apply Qmult_le_compat_r; [|apply Qlt_le_weak, pow2_pos].
    rewrite <- Zle_Qle. subst zx zy. apply rne_mono.
    apply Qmult_le_compat_r; [exact Hxy|apply Qlt_le_weak, pow2_pos].
  - destruct (round_binade x Nx) as [_ Ux]. destruct (round_binade y Ny) as [Ly _].
    pose proof (pow2_le (ilog2 x + 1) (ilog2 y) ltac:(lia)). lra.
Qed.

(** Integers below [2^53] are doubles. *)
Lemma round_Z z : (0 <= z < 2 ^ 53)%Z -> round (inject_Z z) == inject_Z z.
Proof.
  intros [Z0 Z1]. destruct (Z.eq_dec z 0%Z) as [->|Hz]; [reflexivity|].
  assert (X1 : pow2 0 <= inject_Z z).
  { change (pow2 0) with (inject_Z 1). rewrite <- Zle_Qle. lia. }
  assert (N : pow2 (-1022) <= inject_Z z).
  { eapply Qle_trans; [apply (pow2_le (-1022)%Z 0%Z); lia|exact X1]. }
  assert (X0 : 0 < inject_Z z).
  { change 0 with (inject_Z 0). rewrite <- Zlt_Qlt. lia. }
  destruct (round_normal _ N) as (r & E & _ & _ & Hr).
  set (l := ilog2 (inject_Z z)) in *.
  assert (L0 : (0 <= l)%Z) by now apply ilog2_ge.
  assert (L1 : (l < 53)%Z).
  { apply ilog2_lt; [exact X0|]. rewrite pow2_Z by lia. rewrite <- Zlt_Qlt. exact Z1. }
  assert (Em : inject_Z z * pow2 (52 - l) == inject_Z (z * 2 ^ (52 - l))).
  { rewrite inject_Z_mult, pow2_Z by lia. reflexivity. }
  rewrite (rne_compat _ _ Em), rne_Z in Hr. subst r.
  rewrite E, <- Em, <- Qmult_assoc, <- pow2_add.
  replace (52 - l + (l - 52))%Z with 0%Z by lia. change (pow2 0) with 1. ring.
Qed.

(** A product of at most [1 + u] rounds to at most 1. *)
Lemma round_le_1 x : pow2 (-1022) <= x -> x <= 1 + u -> round x <= 1.
Proof.
  intros N Hx.
  assert (X0 : 0 < x) by (pose proof (pow2_pos (-1022)); lra).
  destruct (Qlt_le_dec x 1) as [C|C].
  - destruct (round_binade x N) as [_ U].
    assert (Hl : (ilog2 x < 0)%Z) by (apply ilog2_lt; [exact X0|exact C]).
    pose proof (pow2_le (ilog2 x + 1)%Z 0%Z ltac:(lia)) as M.
    change (pow2 0) with 1 in M. lra.
  - assert (El : ilog2 x = 0%Z).
    { apply ilog2_unique; [exact C|]. change (pow2 (0 + 1)) with 2.
      assert (u < 1) by reflexivity. lra. }
    destruct (round_normal x N) as (z & E & _ & _ & Hz).
    rewrite El in E, Hz. change (52 - 0)%Z with 52%Z in Hz.
    change (0 - 52)%Z with (-52)%Z in E.
    assert (F : Qfloor (x * pow2 52) = (2 ^ 52)%Z).
    { apply Z.le_antisymm.
      - apply Z.lt_succ_r. rewrite Zlt_Qlt.
        eapply Qle_lt_trans; [apply Qfloor_le|].
        assert (T : (1 + u) * pow2 52 < inject_Z (Z.succ (2 ^ 52))) by reflexivity.
        assert (0 < pow2 52) by apply pow2_pos. nra.
      - rewrite <- (Qfloor_Z (2 ^ 52)). apply Qfloor_resp_le.
        assert (T : inject_Z (2 ^ 52) == 1 * pow2 52) by reflexivity.
        assert (0 < pow2 52) by apply pow2_pos. nra. }
    assert (Rz : z = (2 ^ 52)%Z).
    { subst z. unfold rne. rewrite F.
      destruct (Qcompare _ _) eqn:Cm; [reflexivity|reflexivity|].
      exfalso. apply Qgt_alt in Cm.
      assert (T : (1 + u) * pow2 52 - inject_Z (2 ^ 52) == 1 # 2) by reflexivity.
      assert (0 < pow2 52) by apply pow2_pos. nra. }
    rewrite E, Rz. apply Qle_lteq. right. reflexivity.
Qed.

(** *** The scale and the scores of in-degree centrality *)

Lemma of_int_exact z : (0 <= z < 2 ^ 53)%Z -> of_int z == inject_Z z.
Proof. apply round_Z. Qed.

(** [len(G) - 1.0] is at least 1 when there are two nodes or more. *)
Lemma denominator_ge_1 (n : Z) : (2 <= n)%Z -> 1 <= sub (of_int n) 1.
Proof.
  intros Hn. unfold sub, of_int.
  assert (H2 : pow2 1 <= round (inject_Z n)).
  { apply round_ge_pow2; [lia|]. change (pow2 1) with (inject_Z 2).
    rewrite <- Zle_Qle. exact Hn. }
  change (pow2 1) with 2 in H2.
  change 1 with (pow2 0) at 1. apply round_ge_pow2; [lia|].
  change (pow2 0) with 1. set (r := round (inject_Z n)) in *. lra.
Qed.

Lemma denominator_exact (n : Z) :
  (2 <= n < 2 ^ 53)%Z -> sub (of_int n) 1 == inject_Z (n - 1).
Proof.
  intros Hn. unfold sub.
  assert (E : of_int n - 1 == inject_Z (n - 1)).
  { rewrite (of_int_exact n) by lia. unfold Z.sub. rewrite inject_Z_plus. reflexivity. }
  rewrite (round_compat _ _ E). apply round_Z. lia.
Qed.

Lemma inv_normal (m : Z) : (1 <= m < 2 ^ 53)%Z -> pow2 (-53) <= 1 / inject_Z m.
Proof.
  intros Hm.
  assert (M0 : 0 < inject_Z m).
  { change 0 with (inject_Z 0). rewrite <- Zlt_Qlt. lia. }
  apply Qle_shift_div_l; [exact M0|].
  assert (M1 : inject_Z m <= inject_Z (2 ^ 53)) by (rewrite <- Zle_Qle; lia).
  assert (T : pow2 (-53) * inject_Z (2 ^ 53) == 1) by reflexivity.
  assert (P : 0 < pow2 (-53)) by apply pow2_pos.
  set (a := inject_Z m) in *. set (b := inject_Z (2 ^ 53)) in *.
  set (p := pow2 (-53)) in *. nra.
Qed.

Section Scores.
Variables (d n : Z).
Hypothesis Hn : (2 <= n < 2 ^ 53)%Z.
Hypothesis Hd : (0 <= d <= n)%Z.

Local Abbreviation s := (round (1 / sub (of_int n) 1)).
Local Abbreviation q := (mul (of_int d) s).
Local Abbreviation x0 := (1 / inject_Z (n - 1)).

Lemma scale_eq : s == round x0.
Proof.
  apply round_compat.
  now rewrite (denominator_exact n Hn).
Qed.

Lemma scale_bounds : x0 * (1 - u) <= s <= x0 * (1 + u).
Proof.
  rewrite scale_eq. apply round_relative.
  eapply Qle_trans; [apply (pow2_le (-1022)%Z (-53)%Z); lia|].
  apply inv_normal. lia.
Qed.

Lemma x0_bounds : pow2 (-53) <= x0 /\ x0 <= 1.
Proof.
  split; [apply inv_normal; lia|].
  apply Qle_shift_div_r.
  - change 0 with (inject_Z 0). rewrite <- Zlt_Qlt. lia.
  - rewrite Qmult_1_l. change 1 with (inject_Z 1). rewrite <- Zle_Qle. lia.
Qed.

Lemma score_eq : q == round (inject_Z d * round x0).
Proof.
  unfold mul. apply round_compat.
  rewrite (of_int_exact d) by lia. now rewrite scale_eq.
Qed.

Lemma score_of_zero : d = 0%Z -> q == 0.
Proof.
  intros E. rewrite score_eq, E.
  rewrite (round_compat (inject_Z 0 * round x0) 0); [reflexivity|ring].
Qed.

Lemma product_normal : (1 <= d)%Z -> pow2 (-1022) <= inject_Z d * s.
Proof.
  intros D1. destruct scale_bounds as [S1 _]. destruct x0_bounds as [X1 _].
  assert (D : 1 <= inject_Z d).
  { change 1 with (inject_Z 1). rewrite <- Zle_Qle. exact D1. }
  assert (T1 : pow2 (-1022) <= pow2 (-53) * (1 - u)) by (unfold Qle; simpl; lia).
  assert (U0 : 0 < 1 - u) by reflexivity.
  assert (P : 0 < pow2 (-53)) by apply pow2_pos.
  set (a := inject_Z d) in *. set (p := pow2 (-53)) in *.
  set (t := pow2 (-1022)) in *. set (w := 1 - u) in *.
  set (y := x0) in *. set (z := s) in *. clearbody a p t w y z.
  assert (B1 : p * w <= y * w) by nra.
  assert (B2 : 0 <= z) by nra.
  assert (B3 : z <= a * z) by nra.
  lra.
Qed.

Lemma score_bounds :
  inject_Z d / inject_Z (n - 1) * ((1 - u) * (1 - u)) <= q
  /\ q <= inject_Z d / inject_Z (n - 1) * ((1 + u) * (1 + u)).
Proof.
  assert (Ex : inject_Z d / inject_Z (n - 1) == inject_Z d * x0).
  { field. intros E. unfold Qeq in E. simpl in E. lia. }
  rewrite Ex.
  destruct (Z.eq_dec d 0%Z) as [D0|D0].
  - rewrite (score_of_zero D0), D0. split; apply Qle_lteq; right; ring.
  - assert (D1 : (1 <= d)%Z) by lia.
    pose proof (product_normal D1) as Np.
    destruct (round_relative _ Np) as [R1 R2].
    destruct scale_bounds as [S1 S2]. destruct x0_bounds as [X1 X2].
    assert (D : 1 <= inject_Z d).
    { change 1 with (inject_Z 1). rewrite <- Zle_Qle. exact D1. }
    assert (Eq : q == round (inject_Z d * s)).
    { unfold mul. apply round_compat. now rewrite (of_int_exact d) by lia. }
    rewrite Eq.
    assert (U0 : 0 < 1 - u) by reflexivity.
    assert (U1 : 0 < 1 + u) by reflexivity.
    assert (P : 0 < pow2 (-53)) by apply pow2_pos.
    set (r := round (inject_Z d * s)) in *.
    set (a := inject_Z d) in *. set (z := s) in *. set (y := x0) in *.
    set (w := 1 - u) in *. set (w' := 1 + u) in *. set (p := pow2 (-53)) in *.
    clearbody r a z y w w' p.
    assert (A1 : 0 <= a * w) by nra.
    assert (A2 : 0 <= a * w') by nra.
    assert (B1 : a * w * (y * w) <= a * w * z).
    { set (c := a * w) in *. clearbody c. nra. }
    assert (B2 : a * w' * z <= a * w' * (y * w')).
    { set (c := a * w') in *. clearbody c. nra. }
    split; lra.
Qed.

Lemma score_nonneg : 0 <= q.
Proof.
  unfold mul. apply round_nonneg.
  apply Qmult_le_0_compat; apply round_nonneg.
  - change 0 with (inject_Z 0). rewrite <- Zle_Qle. lia.
  - apply Qle_shift_div_l.
    + pose proof (denominator_ge_1 n ltac:(lia)).
      set (b := sub (of_int n) 1) in *. lra.
    + rewrite Qmult_0_l. discriminate.
Qed.

Lemma score_le_1 : (d <= n - 1)%Z -> q <= 1.
Proof.
  intros D.
  destruct (Z.eq_dec d 0%Z) as [D0|D0].
  - rewrite (score_of_zero D0). discriminate.
  - assert (D1 : (1 <= d)%Z) by lia.
    assert (Eq : q == round (inject_Z d * s)).
    { unfold mul. apply round_compat. now rewrite (of_int_exact d) by lia. }
    rewrite Eq. apply round_le_1; [now apply product_normal|].
    destruct scale_bounds as [_ S2].
    assert (M0 : 0 < inject_Z (n - 1)).
    { change 0 with (inject_Z 0). rewrite <- Zlt_Qlt. lia. }
    assert (Ex : inject_Z (n - 1) * x0 == 1).
    { field. intros E. unfold Qeq in E. simpl in E. lia. }
    assert (Dq : inject_Z d <= inject_Z (n - 1)) by (rewrite <- Zle_Qle; exact D).
    assert (D0q : 0 <= inject_Z d).
    { change 0 with (inject_Z 0). rewrite <- Zle_Qle. lia. }
    assert (U1 : 0 < 1 + u) by reflexivity.
    destruct x0_bounds as [X1 X2].
    assert (P : 0 < pow2 (-53)) by apply pow2_pos.
    set (z := s) in *. set (y := x0) in *. set (w' := 1 + u) in *.
    set (a := inject_Z d) in *. set (b := inject_Z (n - 1)) in *.
    set (p := pow2 (-53)) in *.
    clearbody a b z y w' p.
    assert (B1 : a * z <= a * (y * w')) by nra.
    assert (B2 : a * y <= b * y) by nra.
    assert (B3 : a * y * w' <= 1 * w') by nra.
    lra.
Qed.

End Scores.

(** More citations, no smaller score. *)
Lemma score_mono (d1 d2 n : Z) :
  (2 <= n < 2 ^ 53)%Z -> (0 <= d1 <= d2)%Z -> (d2 <= n)%Z ->
  mul (of_int d1) (round (1 / sub (of_int n) 1))
  <= mul (of_int d2) (round (1 / sub (of_int n) 1)).
Proof.
  intros Hn H12 H2.
  destruct (Z.eq_dec d1 0%Z) as [D0|D0].
  - rewrite (score_of_zero d1 n) by lia. apply score_nonneg; lia.
  - set (s := round (1 / sub (of_int n) 1)).
    assert (S0 : 0 <= s).
    { apply round_nonneg, Qle_shift_div_l.
      - pose proof (denominator_ge_1 n ltac:(lia)).
        set (b := sub (of_int n) 1) in *. lra.
      - rewrite Qmult_0_l. discriminate. }
    assert (E1 : of_int d1 * s == inject_Z d1 * s) by (rewrite (of_int_exact d1); [reflexivity|lia]).
    assert (E2 : of_int d2 * s == inject_Z d2 * s) by (rewrite (of_int_exact d2); [reflexivity|lia]).
    unfold mul. rewrite (round_compat _ _ E1), (round_compat _ _ E2).
    apply round_mono.
    + apply (product_normal d1 n); lia.
    + apply Qmult_le_compat_r; [|exact S0]. rewrite <- Zle_Qle. lia.
Qed.

(** One tenth, a tie that goes to the even significand, a tie that goes up
    to it, and the least subnormal. *)
Example round_examples :
  round (1 # 10) == 3602879701896397 # 36028797018963968
  /\ round (inject_Z (2 ^ 53 + 1)) == inject_Z (2 ^ 53)
  /\ round (inject_Z (2 ^ 53 + 3)) == inject_Z (2 ^ 53 + 4)
  /\ round (pow2 (-1074) * (3 # 4)) == pow2 (-1074)
  /\ round (pow2 (-1075)) == 0.
Proof. repeat split; vm_compute; reflexivity. Qed.

(** The multiplication is really rounded: three of five is not [3 / 5]. *)
Example three_fifths :
  mul (of_int 3) (round (1 / sub (of_int 6) 1))
  == 5404319552844596 # 9007199254740992
  /\ ~ (mul (of_int 3) (round (1 / sub (of_int 6) 1)) == 3 / 5).
Proof. split; [vm_compute; reflexivity|]. vm_compute. discriminate. Qed.

End Binary64Facts.

(** ** In-degree centrality *)

Module DegreeFacts.
Import Dict DictFacts DiGraph DiGraphFacts.

(** The predecessors recorded for [v] are the sources of the edges into [v]. *)
Lemma in_preds_iff g v preds u :
  wf g -> get v (_pred g) = Some preds ->
  (In u (keys preds) <->
   In u (map fst (List.filter (fun e => String.eqb (snd e) v) (edges g)))).
Proof.
  intros W Hp. rewrite <- mem_keys.
  assert (Hmem : mem u preds = has_pred v u g) by (unfold has_pred; now rewrite Hp).
  rewrite Hmem, <- (wf_sym g W), <- (in_edges g u v W), in_map_iff. split.
  - intros H. exists (u, v). split; [reflexivity|].
    apply filter_In. split; [exact H|apply String.eqb_refl].
  - intros ([a b] & Ha & H). apply filter_In in H. destruct H as [H Hb].
    simpl in Ha, Hb. apply String.eqb_eq in Hb. now subst.
Qed.

Lemma length_preds g v preds :
  wf g -> get v (_pred g) = Some preds -> length preds = indegree g v.
Proof.
  intros W Hp. unfold indegree.
  rewrite <- (length_map fst preds).
  rewrite <- (length_map fst (List.filter _ (edges g))).
  apply Permutation_length, Stdlib.Sorting.Permutation.NoDup_Permutation.
  - apply (wf_pred_nodup g W v preds Hp).
  - apply Finite.Injective_map_NoDup_in.
    + intros [a b] [c d] Hx Hy Heq.
      apply filter_In in Hx. apply filter_In in Hy.
      destruct Hx as [_ Hx]. destruct Hy as [_ Hy]. simpl in *.
      apply String.eqb_eq in Hx. apply String.eqb_eq in Hy. congruence.
    + apply List.NoDup_filter, NoDup_edges, W.
  - intros u. apply (in_preds_iff g v preds u W Hp).
Qed.

Lemma in_degree_of_spec g ns :
  wf g -> (forall n, In n ns -> In n (nodes g)) ->
  in_degree_of ns (_pred g) = Ok (map (fun n => (n, indegree g n)) ns).
Proof.
  intros W. induction ns as [|n r IH]; intros Hin; simpl; [reflexivity|].
  assert (Hn : In n (nodes g)) by (apply Hin; now left).
  apply (in_pred_nodes g n W), keys_get_Some in Hn. destruct Hn as [preds Hp].
  unfold getitem. rewrite Hp. cbn [rbind].
  rewrite IH by (intros; apply Hin; now right). cbn [rbind].
  now rewrite (length_preds g n preds W Hp).
Qed.

Lemma in_degree_spec g :
  wf g -> in_degree g = Ok (map (fun n => (n, indegree g n)) (nodes g)).
Proof. intros W. apply in_degree_of_spec; auto. Qed.

Lemma keys_tabulate {V : Type} (f : string -> V) ns :
  keys (map (fun n => (n, f n)) ns) = ns.
Proof. unfold keys. rewrite map_map. simpl. apply map_id. Qed.

Lemma get_tabulate {V : Type} (f : string -> V) ns v :
  In v ns -> get v (map (fun n => (n, f n)) ns) = Some (f v).
Proof.
  induction ns as [|n r IH]; simpl; [tauto|].
  destruct (String.eqb n v) eqn:E.
  - apply String.eqb_eq in E. now subst.
  - intros [->|H]; [rewrite String.eqb_refl in E; discriminate|now apply IH].
Qed.

(** The in-degree of a node is at most the number of nodes. *)
Lemma indegree_le g v :
  wf g -> In v (nodes g) -> (indegree g v <= number_of_nodes g)%nat.
Proof.
  intros W Hv.
  pose proof Hv as Hp. apply (in_pred_nodes g v W), keys_get_Some in Hp.
  destruct Hp as [preds Hp].
  rewrite <- (length_preds g v preds W Hp).
  unfold number_of_nodes. rewrite <- (length_map fst (_node g)).
  rewrite <- (length_map fst preds). fold (keys preds). fold (keys (_node g)).
  apply List.NoDup_incl_length.
  - apply (wf_pred_nodup g W v preds Hp).
  - intros u Hu. apply mem_keys in Hu.
    assert (E : has_pred v u g = true) by (unfold has_pred; now rewrite Hp).
    rewrite <- (wf_sym g W) in E. apply (has_edge_source g u v W E).
Qed.

(** The division [1.0 / (n - 1.0)] has a divisor of at least 1. *)
Lemma scale_Ok n :
  (1 < n)%nat ->
  scale n = Ok (Binary64.round (1 / Binary64.sub (Binary64.of_int (Z.of_nat n)) 1)).
Proof.
  intros Hn. unfold scale, Binary64.truediv.
  pose proof (Binary64Facts.denominator_ge_1 (Z.of_nat n) ltac:(lia)) as H.
  destruct (Qeq_bool _ 0) eqn:E; [|reflexivity].
  apply Qeq_bool_iff in E. rewrite E in H. exfalso. apply H. reflexivity.
Qed.

(** The table that [in_degree_centrality] returns. *)
Lemma in_degree_centrality_table g :
  wf g ->
  in_degree_centrality g =
  Ok (map (fun n =>
             (n, if (number_of_nodes g <=? 1)%nat then 1%Q
                 else Binary64.mul
                        (Binary64.of_int (Z.of_nat (indegree g n)))
                        (Binary64.round
                           (1 / Binary64.sub
                                  (Binary64.of_int (Z.of_nat (number_of_nodes g))) 1))))
          (nodes g)).
Proof.
  intros W. unfold in_degree_centrality.
  destruct (Nat.leb_spec (number_of_nodes g) 1) as [H|H].
  - rewrite of_items_NoDup; [reflexivity|].
    rewrite map_map. simpl. rewrite map_id. apply (wf_nodup g W).
  - rewrite (scale_Ok _ H). cbn [rbind].
    rewrite (in_degree_spec g W). cbn [rbind]. rewrite map_map.
    rewrite of_items_NoDup; [reflexivity|].
    rewrite map_map. simpl. rewrite map_id. apply (wf_nodup g W).
Qed.

End DegreeFacts.

(** ** The graph builder *)

Module AdjListFacts.
Import Dict DictFacts DiGraph DiGraphFacts AdjList.

Lemma split_nonempty sep s : PyStr.split sep s <> [].
Proof.
  destruct s as [|c r]; simpl; [discriminate|].
  destruct (Ascii.eqb c sep); [discriminate|].
  destruct (PyStr.split sep r); discriminate.
Qed.

Section Lines.
Variables comments delimiter : ascii.

Lemma parse_line_spec line g :
  wf g ->
  exists g',
    parse_line comments delimiter line g = Ok g'
    /\ wf g'
    /\ (forall n, In n (nodes g') <->
                  In n (nodes g)
                  \/ (skipped comments line = false
                      /\ In n (fields comments delimiter line)))
    /\ (forall a b, has_edge a b g' = true <->
                    has_edge a b g = true
                    \/ (skipped comments line = false
                        /\ exists vs, fields comments delimiter line = a :: vs
                                      /\ In b vs)).
Proof.
  intros W. unfold parse_line. destruct (skipped comments line) eqn:Es.
  - exists g. split; [reflexivity|]. split; [exact W|].
    split; intros; split; auto; intros [H|[H _]]; [exact H|discriminate|exact H|discriminate].
  - destruct (fields comments delimiter line) as [|u vs] eqn:Ef.
    { exfalso. exact (split_nonempty _ _ Ef). }
    destruct (add_edges_from_spec u vs (add_node u g)) as (g' & Hrun & W' & N' & E').
    { now apply add_node_wf. }
    { apply add_node_nodes; [exact W|now left]. }
    exists g'. split; [exact Hrun|]. split; [exact W'|]. split.
    + intros n. rewrite N', (add_node_nodes u g n W). simpl. split.
      * intros [H|[->|H]]; auto.
      * intros [H|[_ [->|H]]]; auto.
    + intros a b. rewrite E', (add_node_has_edge u g a b W). split.
      * intros [[-> H]|H]; [right|now left]. split; [reflexivity|]. now exists vs.
      * intros [H|[_ (vs' & Heq & H)]]; [now right|]. inversion Heq; subst. now left.
Qed.

Lemma parse_from_spec lines g :
  wf g ->
  exists g',
    parse_from comments delimiter lines g = Ok g'
    /\ wf g'
    /\ (forall n, In n (nodes g') <->
                  In n (nodes g)
                  \/ exists line, In line lines
                                  /\ skipped comments line = false
                                  /\ In n (fields comments delimiter line))
    /\ (forall a b, has_edge a b g' = true <->
                    has_edge a b g = true
                    \/ exists line vs, In line lines
                                       /\ skipped comments line = false
                                       /\ fields comments delimiter line = a :: vs
                                       /\ In b vs).
Proof.
  revert g. induction lines as [|line rest IH]; intros g W; simpl.
  - exists g. split; [reflexivity|]. split; [exact W|].
    split; intros; split; auto.
    + intros [H|(l & [] & _)]. exact H.
    + intros [H|(l & vs & [] & _)]. exact H.
  - destruct (parse_line_spec line g W) as (g1 & -> & W1 & N1 & E1). cbn [rbind].
    destruct (IH g1 W1) as (g' & -> & W' & N' & E').
    exists g'. split; [reflexivity|]. split; [exact W'|]. split.
    + intros n. rewrite N', N1. split.
      * intros [[H|[Hs Hf]]|(l & Hl & Hs & Hf)]; [now left|right..].
        -- exists line. auto.
        -- exists l. auto.
      * intros [H|(l & [<-|Hl] & Hs & Hf)]; [now left; left|now left; right|right].
        exists l. auto.
    + intros a b. rewrite E', E1. split.
      * intros [[H|[Hs (vs & Hf & Hb)]]|(l & vs & Hl & Hs & Hf & Hb)]; [now left|right..].
        -- exists line, vs. auto.
        -- exists l, vs. auto.
      * intros [H|(l & vs & [<-|Hl] & Hs & Hf & Hb)]; [now left; left| |right].
        -- left. right. split; [exact Hs|]. now exists vs.
        -- exists l, vs. auto.
Qed.

(** The pairs of an input all of whose lines have two fields. *)
Lemma in_pairs lines u v :
  In (u, v) (pairs comments delimiter lines) <->
  exists line, In line lines /\ skipped comments line = false
               /\ fields comments delimiter line = [u; v].
Proof.
  unfold pairs. rewrite in_flat_map. split.
  - intros (line & Hl & H). exists line. split; [exact Hl|].
    destruct (skipped comments line); [destruct H|]. split; [reflexivity|].
    destruct (fields comments delimiter line) as [|a [|b [|c r]]]; try destruct H.
    + now inversion H.
    + destruct H.
  - intros (line & Hl & Hs & Hf). exists line. split; [exact Hl|].
    rewrite Hs, Hf. now left.
Qed.

End Lines.

(** *** Decoding *)

Lemma ascii_utf8_valid s : PyStr.is_ascii s = true -> PyStr.utf8_valid s = true.
Proof.
  induction s as [|c r IH]; [reflexivity|].
  cbn [PyStr.is_ascii PyStr.utf8_valid]. intros H.
  apply andb_true_iff in H. destruct H as [Hc Hr]. rewrite Hc. now apply IH.
Qed.

Lemma decode_Ok bytes line : PyStr.decode bytes = Ok line -> line = bytes.
Proof.
  unfold PyStr.decode. destruct (PyStr.utf8_valid bytes); [|discriminate].
  intros H. now inversion H.
Qed.

Lemma readlines_ascii text :
  PyStr.is_ascii text = true ->
  List.Forall (fun l => PyStr.is_ascii l = true) (PyStr.readlines text).
Proof.
  induction text as [|c r IH]; [constructor|].
  cbn [PyStr.is_ascii PyStr.readlines]. intros H.
  apply andb_true_iff in H. destruct H as [Hc Hr]. specialize (IH Hr).
  destruct (Ascii.eqb c PyStr.nl).
  - constructor; [|exact IH]. cbn [PyStr.is_ascii]. now rewrite Hc.
  - destruct (PyStr.readlines r) as [|l ls].
    + constructor; [|constructor]. cbn [PyStr.is_ascii]. now rewrite Hc.
    + inversion IH as [|? ? Hl Hls]; subst. constructor; [|exact Hls].
      cbn [PyStr.is_ascii]. now rewrite Hc, Hl.
Qed.

(** On lines that decode, reading is parsing. *)
Lemma read_from_ascii comments delimiter raw g :
  List.Forall (fun l => PyStr.is_ascii l = true) raw ->
  read_from comments delimiter raw g = parse_from comments delimiter raw g.
Proof.
  intros H. revert g. induction H as [|l r Hl _ IH]; intros g; [reflexivity|].
  cbn [read_from parse_from]. unfold PyStr.decode.
  rewrite (ascii_utf8_valid l Hl). cbn [rbind].
  destruct (parse_line comments delimiter l g); cbn [rbind]; [apply IH|reflexivity].
Qed.

(** A read that returns has parsed the lines of the file. *)
Lemma read_from_Ok comments delimiter raw g g' :
  read_from comments delimiter raw g = Ok g' ->
  parse_from comments delimiter raw g = Ok g'.
Proof.
  revert g. induction raw as [|l r IH]; intros g; [auto|].
  cbn [read_from parse_from]. unfold PyStr.decode.
  destruct (PyStr.utf8_valid l); [|discriminate]. cbn [rbind].
  destruct (parse_line comments delimiter l g); cbn [rbind]; [apply IH|discriminate].
Qed.

Lemma build_graph_ascii text :
  PyStr.is_ascii text = true ->
  build_graph text = parse_adjlist PyStr.dquote PyStr.comma (PyStr.readlines text).
Proof.
  intros H. unfold build_graph, read_adjlist, parse_adjlist.
  apply read_from_ascii, readlines_ascii, H.
Qed.

Lemma build_graph_parsed text g :
  build_graph text = Ok g ->
  parse_adjlist PyStr.dquote PyStr.comma (PyStr.readlines text) = Ok g.
Proof. unfold build_graph, read_adjlist, parse_adjlist. apply read_from_Ok. Qed.

Lemma build_graph_wf text g : build_graph text = Ok g -> wf g.
Proof.
  intros H. apply build_graph_parsed in H. unfold parse_adjlist in H.
  destruct (parse_from_spec PyStr.dquote PyStr.comma (PyStr.readlines text)
              empty wf_empty) as (g' & Hrun & W & _).
  congruence.
Qed.

End AdjListFacts.

(** C4.  On ASCII text a line that does not split into exactly two
    identifiers raises nothing: a line that is not skipped and has the fields
    [u, v1, ..., vn] adds the node [u] and the edges from [u] to each [vi],
    whatever [n] is.  The graph has no repeated node and no repeated edge.
    When every line that is not skipped has exactly two fields, the nodes are
    the ids of either column and the edges are exactly the pairs of the
    input, self-loops included. *)
Theorem build_graph_total_and_exact (text : string) :
  PyStr.is_ascii text = true ->
  exists g,
    build_graph text = Ok g
    /\ List.NoDup (DiGraph.nodes g)
    /\ List.NoDup (DiGraph.edges g)
    /\ (forall n, In n (DiGraph.nodes g) <->
                  exists line, In line (PyStr.readlines text)
                               /\ AdjList.skipped PyStr.dquote line = false
                               /\ In n (AdjList.fields PyStr.dquote PyStr.comma line))
    /\ (forall u v, In (u, v) (DiGraph.edges g) <->
                    exists line vs,
                      In line (PyStr.readlines text)
                      /\ AdjList.skipped PyStr.dquote line = false
                      /\ AdjList.fields PyStr.dquote PyStr.comma line = u :: vs
                      /\ In v vs)
    /\ (List.Forall (AdjList.two_fields PyStr.dquote PyStr.comma) (PyStr.readlines text) ->
        (forall n, In n (DiGraph.nodes g) <->
                   exists u v,
                     In (u, v) (AdjList.pairs PyStr.dquote PyStr.comma (PyStr.readlines text))
                     /\ (n = u \/ n = v))
        /\ (forall u v, In (u, v) (DiGraph.edges g) <->
                        In (u, v) (AdjList.pairs PyStr.dquote PyStr.comma
                                     (PyStr.readlines text)))).
Proof.
  intros Hascii. rewrite (AdjListFacts.build_graph_ascii text Hascii).
  unfold AdjList.parse_adjlist.
  destruct (AdjListFacts.parse_from_spec PyStr.dquote PyStr.comma
              (PyStr.readlines text) DiGraph.empty DiGraphFacts.wf_empty)
    as (g & Hrun & W & N & E).
  assert (N' : forall n, In n (DiGraph.nodes g) <->
                 exists line, In line (PyStr.readlines text)
                              /\ AdjList.skipped PyStr.dquote line = false
                              /\ In n (AdjList.fields PyStr.dquote PyStr.comma line)).
  { intros n. rewrite N. split; [intros [[]|H]; exact H|auto]. }
  assert (E' : forall u v, In (u, v) (DiGraph.edges g) <->
                 exists line vs,
                   In line (PyStr.readlines text)
                   /\ AdjList.skipped PyStr.dquote line = false
                   /\ AdjList.fields PyStr.dquote PyStr.comma line = u :: vs
                   /\ In v vs).
  { intros u v. rewrite (DiGraphFacts.in_edges g u v W), E.
    split; [intros [H|H]; [discriminate|exact H]|auto]. }
  exists g. split; [exact Hrun|].
  split; [apply (DiGraph.wf_nodup g W)|].
  split; [apply DiGraphFacts.NoDup_edges, W|].
  split; [exact N'|]. split; [exact E'|].
  intros Htwo. rewrite List.Forall_forall in Htwo. split.
  - intros n. rewrite N'. split.
    + intros (line & Hl & Hs & Hn).
      destruct (Htwo line Hl) as [Hsk|Hlen]; [congruence|].
      destruct (AdjList.fields PyStr.dquote PyStr.comma line) as [|u [|v [|w r]]] eqn:Ef;
        try discriminate.
      exists u, v. split.
      * apply AdjListFacts.in_pairs. now exists line.
      * simpl in Hn. destruct Hn as [<-|[<-|[]]]; auto.
    + intros (u & v & Hp & Hn). apply AdjListFacts.in_pairs in Hp.
      destruct Hp as (line & Hl & Hs & Hf). exists line.
      split; [exact Hl|]. split; [exact Hs|]. rewrite Hf. simpl.
      destruct Hn as [->| ->]; auto.
  - intros u v. rewrite E', AdjListFacts.in_pairs. split.
    + intros (line & vs & Hl & Hs & Hf & Hv). exists line.
      split; [exact Hl|]. split; [exact Hs|].
      destruct (Htwo line Hl) as [Hsk|Hlen]; [congruence|].
      rewrite Hf in Hlen |- *. destruct vs as [|v' [|w r]]; try discriminate.
      destruct Hv as [->|[]]. reflexivity.
    + intros (line & Hl & Hs & Hf). exists line, [v]. simpl. auto.
Qed.

Lemma build_graph_total_and_exact_witness :
  exists g,
    build_graph Sample.edges_text = Ok g
    /\ (forall u v, In (u, v) (DiGraph.edges g) <->
                    In (u, v) [("A", "B"); ("B", "C"); ("C", "A"); ("D", "A")]).
Proof.
  destruct (build_graph_total_and_exact Sample.edges_text)
    as (g & Hrun & _ & _ & _ & _ & Htwo).
  - reflexivity.
  - exists g. split; [exact Hrun|]. apply Htwo.
    repeat constructor; right; reflexivity.
Defined.

(** The claim C4 as written fails: a line of three identifiers is read
    without error, as two edges. *)
Lemma build_graph_accepts_three_fields :
  AdjList.skipped PyStr.dquote (Sample.ln "1,2,3") = false
  /\ AdjList.fields PyStr.dquote PyStr.comma (Sample.ln "1,2,3") = ["1"; "2"; "3"]
  /\ exists g, build_graph (Sample.ln "1,2,3") = Ok g
               /\ DiGraph.nodes g = ["1"; "2"; "3"]
               /\ DiGraph.edges g = [("1", "2"); ("1", "3")].
Proof.
  split; [reflexivity|]. split; [reflexivity|].
  eexists. split; [reflexivity|]. split; reflexivity.
Qed.

(** C1.  For every directed graph, [in_degree_centrality] returns a table
    over the nodes of the graph, in their order.  With more than one node
    (and fewer than [2^53]) the score of [v] is the double
    [indegree v * (1.0 / (N - 1))], each operation rounded once; it lies
    within the factors [(1 - u)^2] and [(1 + u)^2] of the rational
    [indegree v / (N - 1)], where [u = 2^-53].  With exactly one node the
    score of that node is 1. *)
Theorem in_degree_centrality_scores (g : DiGraph.t) :
  DiGraph.wf g ->
  (Z.of_nat (DiGraph.number_of_nodes g) < 2 ^ 53)%Z ->
  exists table,
    in_degree_centrality g = Ok table
    /\ Dict.keys table = DiGraph.nodes g
    /\ forall v, In v (DiGraph.nodes g) ->
         exists q,
           Dict.get v table = Some q
           /\ ((1 < DiGraph.number_of_nodes g)%nat ->
               let d := inject_Z (Z.of_nat (DiGraph.indegree g v)) in
               let m := inject_Z (Z.of_nat (DiGraph.number_of_nodes g) - 1) in
               let u := Binary64.unit_roundoff in
               (q == Binary64.round (d * Binary64.round (1 / m))
                /\ d / m * ((1 - u) * (1 - u)) <= q
                /\ q <= d / m * ((1 + u) * (1 + u)))%Q)
           /\ (DiGraph.number_of_nodes g = 1%nat -> q = 1%Q).
Proof.
  intros W Hsize. rewrite (DegreeFacts.in_degree_centrality_table g W).
  eexists. split; [reflexivity|]. split; [apply DegreeFacts.keys_tabulate|].
  intros v Hv. eexists. split; [apply DegreeFacts.get_tabulate, Hv|].
  pose proof (DegreeFacts.indegree_le g v W Hv) as Hd.
  split; intros HN.
  - destruct (Nat.leb_spec (DiGraph.number_of_nodes g) 1) as [H|H]; [lia|].
    cbv zeta. split; [|split].
    + apply Binary64Facts.score_eq; lia.
    + apply Binary64Facts.score_bounds; lia.
    + apply Binary64Facts.score_bounds; lia.
  - rewrite HN. reflexivity.
Qed.

Lemma in_degree_centrality_scores_witness :
  exists g table q,
    build_graph Sample.edges_text = Ok g
    /\ in_degree_centrality g = Ok table
    /\ Dict.keys table = ["A"; "B"; "C"; "D"]
    /\ Dict.get "A" table = Some q
    /\ (q == Binary64.round (2 * Binary64.round (1 / 3)))%Q
    /\ (2 / 3 * ((1 - Binary64.unit_roundoff) * (1 - Binary64.unit_roundoff)) <= q)%Q
    /\ (q <= 2 / 3 * ((1 + Binary64.unit_roundoff) * (1 + Binary64.unit_roundoff)))%Q.
Proof.
  destruct (build_graph Sample.edges_text) as [g|e] eqn:E; [|discriminate].
  destruct (in_degree_centrality_scores g) as (table & Hrun & Hkeys & Hscore).
  - apply (AdjListFacts.build_graph_wf Sample.edges_text). exact E.
  - vm_compute in E. injection E as <-. reflexivity.
  - destruct (Hscore "A") as (q & Hq & Hform & _).
    + vm_compute in E. injection E as <-. simpl. tauto.
    + exists g, table, q. split; [reflexivity|]. split; [exact Hrun|].
      split; [rewrite Hkeys; vm_compute in E; injection E as <-; reflexivity|].
      split; [exact Hq|].
      vm_compute in E. injection E as <-. apply Hform. vm_compute. lia.
Defined.

(** The claim C1 as written fails on the graph with one node: the score of
    that node is 1, not 0. *)
Lemma in_degree_centrality_single_node :
  exists g,
    build_graph (Sample.ln "A") = Ok g
    /\ DiGraph.nodes g = ["A"]
    /\ in_degree_centrality g = Ok [("A", 1%Q)]
    /\ ~ (1 == 0)%Q.
Proof.
  eexists. split; [reflexivity|]. split; [reflexivity|]. split; [reflexivity|].
  discriminate.
Qed.

(** ** PageRank and eigenvector centrality *)

Module SpectralFacts.
Import Dict DictFacts DiGraph Spectral.



Section Kernels.
Variable F : Type.
Variable sweep : DiGraph.t -> list F -> list F.
Variable close_enough : nat -> list F -> list F -> bool.
Variable g : DiGraph.t.
Hypothesis sweep_length : forall x, length (sweep g x) = length x.



End Kernels.


End SpectralFacts.




(** ** Ranking *)

Module RankingFacts.
Import Ranking.

Lemma score_lt_true a b : score_lt a b = true -> (a < b)%Q.
Proof.
  unfold score_lt. intros H. apply negb_true_iff in H.
  apply Qnot_le_lt. intros Hle. apply Qle_bool_iff in Hle. congruence.
Qed.

Lemma score_lt_false a b : score_lt a b = false -> (b <= a)%Q.
Proof.
  unfold score_lt. intros H. apply negb_false_iff in H.
  now apply Qle_bool_iff.
Qed.

Lemma ge_item_trans a b c : ge_item a b -> ge_item b c -> ge_item a c.
Proof. unfold ge_item. intros H1 H2. eapply Qle_trans; eassumption. Qed.

Lemma insert_desc_perm x l : Permutation (insert_desc x l) (x :: l).
Proof.
  induction l as [|y r IH]; simpl.
  - reflexivity.
  - destruct (score_lt _ _).
    + rewrite IH. apply perm_swap.
    + reflexivity.
Qed.

Lemma sorted_desc_perm l : Permutation (sorted_desc l) l.
Proof.
  induction l as [|x r IH]; simpl.
  - reflexivity.
  - rewrite insert_desc_perm. now constructor.
Qed.

Lemma sorted_desc_length l : length (sorted_desc l) = length l.
Proof. apply Permutation_length, sorted_desc_perm. Qed.

Lemma insert_desc_sorted x l :
  StronglySorted ge_item l -> StronglySorted ge_item (insert_desc x l).
Proof.
  induction 1 as [|y r Hs IH Hy]; simpl.
  - repeat constructor.
  - destruct (score_lt _ _) eqn:E.
    + constructor; [exact IH|].
      eapply Permutation_Forall; [symmetry; apply insert_desc_perm|].
      constructor; [|exact Hy].
      apply Qlt_le_weak, score_lt_true, E.
    + apply score_lt_false in E.
      constructor; [constructor; assumption|].
      constructor; [exact E|].
      eapply Forall_impl; [exact Hy|].
      intros z Hz. eapply ge_item_trans; [exact E|exact Hz].
Qed.

Lemma sorted_desc_sorted l : StronglySorted ge_item (sorted_desc l).
Proof.
  induction l as [|x r IH]; simpl.
  - constructor.
  - now apply insert_desc_sorted.
Qed.

Lemma in_firstn {A : Type} (x : A) n l : In x (firstn n l) -> In x l.
Proof.
  revert n. induction l as [|y r IH]; intros [|n]; simpl; try tauto.
  intros [H|H]; [now left | right; eapply IH; exact H].
Qed.


Lemma firstn_sorted {A : Type} (R : A -> A -> Prop) n l :
  StronglySorted R l -> StronglySorted R (firstn n l).
Proof.
  intros H. revert n. induction H as [|x r Hs IH Hx]; intros [|n]; simpl;
    try constructor.
  - apply IH.
  - apply List.Forall_forall. intros y Hy.
    rewrite List.Forall_forall in Hx. apply Hx.
    eapply in_firstn; exact Hy.
Qed.


(** Stability: the items of any one score keep their input order. *)
Lemma insert_desc_stable x l q :
  List.filter (fun it => Qeq_bool (itemgetter1 it) q) (insert_desc x l)
  = List.filter (fun it => Qeq_bool (itemgetter1 it) q) (x :: l).
Proof.
  induction l as [|y r IH]; [reflexivity|].
  cbn [insert_desc]. destruct (score_lt _ _) eqn:E; [|reflexivity].
  cbn [List.filter] in *. rewrite IH.
  destruct (Qeq_bool (itemgetter1 x) q) eqn:Ex;
    destruct (Qeq_bool (itemgetter1 y) q) eqn:Ey; try reflexivity.
  exfalso. apply score_lt_true in E.
  apply Qeq_bool_iff in Ex. apply Qeq_bool_iff in Ey.
  apply (Qlt_not_eq _ _ E). now rewrite Ex, Ey.
Qed.

Lemma sorted_desc_stable l q :
  List.filter (fun it => Qeq_bool (itemgetter1 it) q) (sorted_desc l)
  = List.filter (fun it => Qeq_bool (itemgetter1 it) q) l.
Proof.
  induction l as [|x r IH]; [reflexivity|].
  cbn [sorted_desc fold_right]. fold (sorted_desc r).
  rewrite insert_desc_stable. cbn [List.filter]. now rewrite IH.
Qed.

Lemma slice_to_nonneg {A : Type} (k : Z) (l : list A) :
  (0 <= k)%Z -> slice_to k l = firstn (Z.to_nat k) l.
Proof.
  intros Hk. unfold slice_to.
  destruct (k <? 0)%Z eqn:E; [|reflexivity].
  apply Z.ltb_lt in E. lia.
Qed.

End RankingFacts.



(** ** The end-to-end scenario: four citations among A, B, C and D *)

Module Scenario.

Example graph_of_edges :
  exists g, build_graph Sample.edges_text = Ok g
            /\ DiGraph.nodes g = ["A"; "B"; "C"; "D"]
            /\ DiGraph.edges g = [("A", "B"); ("B", "C"); ("C", "A"); ("D", "A")].
Proof. eexists. repeat split; reflexivity. Qed.

(** The scores are doubles: 0.6666666666666666 for A, 0.3333333333333333
    for B and C, 0.0 for D. *)
Example scores_of_edges :
  exists table,
    (let* g := build_graph Sample.edges_text in in_degree_centrality g) = Ok table
    /\ Dict.keys table = ["A"; "B"; "C"; "D"]
    /\ Forall2 Qeq (map snd table)
         [6004799503160661 # 9007199254740992;
          6004799503160661 # 18014398509481984;
          6004799503160661 # 18014398509481984;
          0]%Q.
Proof.
  eexists. split; [vm_compute; reflexivity|]. split; [reflexivity|].
  repeat constructor.
Qed.

(** Three citations among six patents: the score is 0.6000000000000001, not
    three fifths. *)
Example three_of_five :
  exists g,
    build_graph (Sample.ln "1,0" ++ Sample.ln "2,0" ++ Sample.ln "3,0"
                 ++ Sample.ln "4,5")%string = Ok g
    /\ DiGraph.number_of_nodes g = 6%nat
    /\ DiGraph.indegree g "0" = 3%nat
    /\ exists table q,
         in_degree_centrality g = Ok table
         /\ Dict.get "0" table = Some q
         /\ (q == 5404319552844596 # 9007199254740992)%Q
         /\ ~ (q == 3 # 5)%Q.
Proof.
  eexists. split; [vm_compute; reflexivity|]. split; [reflexivity|].
  split; [reflexivity|]. eexists _, _. split; [vm_compute; reflexivity|].
  split; [reflexivity|]. split; [reflexivity|]. discriminate.
Qed.

Example top_two :
  Ranking.top_k Sample.scores 2 = [("A", 2 # 3); ("B", 1 # 3)]%Q.
Proof. reflexivity. Qed.

Example top_beyond_size :
  Ranking.top_k Sample.scores 10
  = [("A", 2 # 3); ("B", 1 # 3); ("C", 1 # 3); ("D", 0 # 3)]%Q.
Proof. reflexivity. Qed.

(** The header line of the data file is skipped; a blank line is not: it
    adds the node named by the empty string. *)
Example header_and_blank_line :
  exists g,
    build_graph (Sample.ln (String PyStr.dquote "CITING" ++ String PyStr.dquote ","
                            ++ String PyStr.dquote "CITED" ++ String PyStr.dquote EmptyString)
                 ++ Sample.ln "3858241,956203" ++ Sample.ln EmptyString) = Ok g
    /\ DiGraph.nodes g = ["3858241"; "956203"; EmptyString]
    /\ DiGraph.edges g = [("3858241", "956203")].
Proof. eexists. repeat split; reflexivity. Qed.

(** A line that is not UTF-8 stops the reader, even behind the comment
    character; the lines before it have been read. *)
Example undecodable_line :
  build_graph (Sample.ln "1,2" ++ Sample.ln (String PyStr.dquote (String "255" EmptyString)))
  = Raise UnicodeDecodeError.
Proof. reflexivity. Qed.

End Scenario.

(** ** The report *)

Module SessionFacts.
Import Frame Session.

Lemma mask_rows zs iP rs :
  map fst (List.filter (fun '(_, (_, b)) => b)
             (combine rs (isin (map (fun r => (fst r, cell_at iP r)) rs) zs)))
  = select zs iP rs.
Proof.
  induction rs as [|r rs IH]; simpl; [reflexivity|].
  destruct (existsb _ zs); simpl; rewrite IH; reflexivity.
Qed.

(** [lookup], step by step. *)
Lemma lookup_unfold (h : heap) (pat_data : loc) (ids : list string) :
  lookup pat_data ids h =
  match h !! pat_data with
  | None => (Raise (NameError "pat_data"), h)
  | Some t =>
      match position "PATENT" (columns t) with
      | None => (Raise (KeyError "PATENT"), h)
      | Some iP =>
          match PyInt.ints ids with
          | Raise e => (Raise e, h)
          | Ok zs =>
              let sel := {| columns := columns t;
                            rows := select zs iP (rows t) |} in
              let h1 := <[fresh (dom h) := sel]> h in
              match getitem_cols cols sel with
              | Raise e => (Raise e, h1)
              | Ok proj =>
                  let h2 := <[fresh (dom h1) := proj]> h1 in
                  (Ok (fresh (dom h2)), <[fresh (dom h2) := proj]> h2)
              end
          end
      end
  end.
Proof.
  unfold lookup, bind, deref, lift, alloc, getitem_col, M in *.
  destruct (h !! pat_data) as [t|]; [|reflexivity].
  destruct (position "PATENT" (columns t)) as [iP|]; [|reflexivity].
  destruct (PyInt.ints ids) as [zs|e]; [|reflexivity].
  cbv zeta. rewrite lookup_insert_eq.
  unfold getitem_mask. rewrite mask_rows.
  destruct (getitem_cols cols _) as [proj|e]; [|reflexivity].
  rewrite lookup_insert_eq. reflexivity.
Qed.

Lemma fresh_lookup_None (h : heap) : h !! fresh (dom h) = None.
Proof. apply not_elem_of_dom, is_fresh. Qed.

Lemma insert_fresh_lookup (h : heap) (f : Frame.DataFrame) (l : loc) :
  is_Some (h !! l) -> <[fresh (dom h) := f]> h !! l = h !! l.
Proof.
  intros Hl. apply lookup_insert_ne. intros <-.
  rewrite fresh_lookup_None in Hl. destruct Hl; discriminate.
Qed.

(** *** The list comprehension [[int(id) for id in patent_ids]] *)

Lemma ints_Ok ids zs :
  PyInt.ints ids = Ok zs -> Forall2 (fun id z => PyInt.parse id = Some z) ids zs.
Proof.
  revert zs. induction ids as [|id r IH]; simpl; intros zs H.
  - inversion H. constructor.
  - unfold PyInt.int in H. destruct (PyInt.parse id) as [z|] eqn:E; simpl in H;
      [|discriminate].
    destruct (PyInt.ints r) as [zs'|e]; simpl in H; [|discriminate].
    inversion H; subst. constructor; [exact E|]. now apply IH.
Qed.

Lemma ints_Raise ids e :
  PyInt.ints ids = Raise e ->
  exists good bad rest,
    ids = good ++ bad :: rest /\ e = ValueError bad
    /\ PyInt.parse bad = None
    /\ List.Forall (fun id => PyInt.parse id <> None) good.
Proof.
  induction ids as [|id r IH]; simpl; intros H; [discriminate|].
  unfold PyInt.int in H. destruct (PyInt.parse id) as [z|] eqn:E; simpl in H.
  - destruct (PyInt.ints r) as [zs'|e'] eqn:Er; simpl in H; [discriminate|].
    inversion H; subst e'.
    destruct (IH eq_refl) as (good & bad & rest & -> & -> & Hb & Hg).
    exists (id :: good), bad, rest. repeat split; try assumption.
    constructor; [congruence|exact Hg].
  - inversion H; subst e. exists [], id, r. repeat split; [exact E|constructor].
Qed.

Lemma ints_total ids :
  (forall id, In id ids -> PyInt.parse id <> None) ->
  exists zs, PyInt.ints ids = Ok zs.
Proof.
  induction ids as [|id r IH]; simpl; intros H.
  - now exists [].
  - destruct IH as [zs Hzs]; [intros; apply H; now right|].
    unfold PyInt.int. destruct (PyInt.parse id) as [z|] eqn:E.
    + exists (z :: zs). simpl. now rewrite Hzs.
    + exfalso. apply (H id); [now left|exact E].
Qed.

Lemma ints_bad ids id :
  In id ids -> PyInt.parse id = None -> exists e, PyInt.ints ids = Raise e.
Proof.
  intros Hin Hbad. destruct (PyInt.ints ids) as [zs|e] eqn:E; [|now exists e].
  apply ints_Ok in E. exfalso.
  induction E as [|x z xs zs' Hx _ IH]; [destruct Hin|].
  destruct Hin as [->|Hin]; [congruence|now apply IH].
Qed.

(** The mask of [isin] keeps the rows that match an input id. *)
Lemma select_matches ids zs iP rs :
  Forall2 (fun id z => PyInt.parse id = Some z) ids zs ->
  select zs iP rs = List.filter (Report.matches ids iP) rs.
Proof.
  intros H. unfold select. apply filter_ext. intros r.
  unfold Report.matches. destruct (cell_at iP r) as [p| |]; simpl.
  - induction H as [|id z ids' zs' Hid _ IH]; simpl; [reflexivity|].
    rewrite Hid, IH. f_equal. apply Z.eqb_sym.
  - clear H. induction zs; simpl; auto.
  - clear H. induction zs; simpl; auto.
Qed.

(** A row matches when its patent cell holds the value of some input id. *)
Lemma matches_spec ids iP r :
  Report.matches ids iP r = true <->
  exists id p, In id ids /\ PyInt.parse id = Some p /\ cell_at iP r = Int p.
Proof.
  unfold Report.matches. split.
  - destruct (cell_at iP r) as [p| |]; try discriminate.
    intros H. apply existsb_exists in H. destruct H as (id & Hin & H).
    destruct (PyInt.parse id) as [z|] eqn:E; [|discriminate].
    apply Z.eqb_eq in H. subst z. now exists id, p.
  - intros (id & p & Hin & Hp & ->). apply existsb_exists.
    exists id. split; [exact Hin|]. rewrite Hp. apply Z.eqb_refl.
Qed.

Lemma matches_same_ids ids1 ids2 iP r :
  (forall id, In id ids1 <-> In id ids2) ->
  Report.matches ids1 iP r = Report.matches ids2 iP r.
Proof.
  intros H. apply eq_true_iff_eq. rewrite !matches_spec.
  split; intros (id & p & Hin & Hrest); exists id, p; (split; [apply H, Hin|exact Hrest]).
Qed.

Lemma positions_cols cs iP iG iC :
  position "PATENT" cs = Some iP ->
  position "GYEAR" cs = Some iG ->
  position "COMPNAME" cs = Some iC ->
  positions cols cs = Ok [iP; iG; iC].
Proof.
  intros HP HG HC. unfold cols, positions, not_found, get_indexer. simpl.
  now rewrite HP, HG, HC.
Qed.

(** What a returning call has done. *)
Lemma lookup_Ok (h h' : heap) (pat_data l : loc) (ids : list string) :
  lookup pat_data ids h = (Ok l, h') ->
  exists t iP zs ps,
    h !! pat_data = Some t
    /\ position "PATENT" (columns t) = Some iP
    /\ PyInt.ints ids = Ok zs
    /\ positions cols (columns t) = Ok ps
    /\ h' !! l = Some {| columns := cols;
                         rows := map (fun r => (fst r, map (fun i => cell_at i r) ps))
                                     (select zs iP (rows t)) |}.
Proof.
  rewrite lookup_unfold.
  destruct (h !! pat_data) as [t|] eqn:Et; [|discriminate].
  destruct (position "PATENT" (columns t)) as [iP|] eqn:EP; [|discriminate].
  destruct (PyInt.ints ids) as [zs|e] eqn:Ez; [|discriminate].
  cbv zeta. unfold getitem_cols. cbn [columns rows].
  destruct (positions cols (columns t)) as [ps|e] eqn:Eps; simpl; [|discriminate].
  intros H. inversion H; subst. exists t, iP, zs, ps.
  repeat split; try reflexivity; try assumption. apply lookup_insert_eq.
Qed.

Lemma lookup_bad_id_raises (h : heap) (pat_data : loc) (ids : list string) id :
  In id ids -> PyInt.parse id = None -> raises (fst (lookup pat_data ids h)).
Proof.
  intros Hin Hbad. rewrite lookup_unfold.
  destruct (ints_bad ids id Hin Hbad) as [e He]. rewrite He.
  destruct (h !! pat_data) as [t|]; [|exact I].
  destruct (position _ _); exact I.
Qed.

Lemma select_sublist zs iP rs : select zs iP rs `sublist_of` rs.
Proof.
  unfold select. induction rs as [|r rs IH]; simpl; [constructor|].
  destruct (existsb _ zs); now constructor.
Qed.

Lemma filter_sublist {A : Type} (f : A -> bool) (l : list A) :
  List.filter f l `sublist_of` l.
Proof.
  induction l as [|x l IH]; simpl; [constructor|].
  destruct (f x); now constructor.
Qed.

End SessionFacts.

(** C7.  For every attribute table (an object bound to [pat_data] that has the
    columns PATENT, GYEAR and COMPNAME) and every sequence of ids each of
    which is an integer literal, [lookup] returns a new frame holding exactly
    the rows of the table whose patent id is the value of some input id,
    reduced to the three report columns, in the order of the table; an id
    without a row contributes nothing and raises nothing. *)
Theorem lookup_returns_matching_rows
  (h : Session.heap) (pat_data : Session.loc) (table : Frame.DataFrame)
  (ids : list string) (iP iG iC : nat) :
  h !! pat_data = Some table ->
  Frame.position "PATENT" (Frame.columns table) = Some iP ->
  Frame.position "GYEAR" (Frame.columns table) = Some iG ->
  Frame.position "COMPNAME" (Frame.columns table) = Some iC ->
  (forall id, In id ids -> PyInt.parse id <> None) ->
  exists l h',
    Session.lookup pat_data ids h = (Ok l, h')
    /\ h' !! l = Some (Report.expected ids iP iG iC table)
    /\ (forall r, In r (Frame.rows (Report.expected ids iP iG iC table)) <->
                  exists r0 id p,
                    In r0 (Frame.rows table) /\ r = Report.project iP iG iC r0
                    /\ In id ids /\ PyInt.parse id = Some p
                    /\ Frame.cell_at iP r0 = Frame.Int p)
    /\ Frame.rows (Report.expected ids iP iG iC table)
         `sublist_of` map (Report.project iP iG iC) (Frame.rows table).
Proof.
  intros Hpd HP HG HC Hids.
  destruct (SessionFacts.ints_total ids Hids) as [zs Hzs].
  rewrite SessionFacts.lookup_unfold, Hpd, HP, Hzs. cbv zeta.
  unfold Frame.getitem_cols. cbn [Frame.columns Frame.rows].
  rewrite (SessionFacts.positions_cols _ iP iG iC HP HG HC). simpl rbind.
  eexists _, _. split; [reflexivity|]. split; [|split].
  - rewrite lookup_insert_eq.
    unfold Report.expected. f_equal.
    rewrite (SessionFacts.select_matches ids zs) by (now apply SessionFacts.ints_Ok).
    reflexivity.
  - intros r. unfold Report.expected. cbn [Frame.rows].
    rewrite in_map_iff. split.
    + intros (r0 & <- & Hin). apply filter_In in Hin. destruct Hin as [Hin Hm].
      apply SessionFacts.matches_spec in Hm. destruct Hm as (id & p & H1 & H2 & H3).
      now exists r0, id, p.
    + intros (r0 & id & p & Hin & -> & H1 & H2 & H3). exists r0. split; [reflexivity|].
      apply filter_In. split; [exact Hin|].
      apply SessionFacts.matches_spec. now exists id, p.
  - unfold Report.expected. cbn [Frame.rows].
    apply (fmap_sublist (Report.project iP iG iC)), SessionFacts.filter_sublist.
Qed.

Lemma lookup_returns_matching_rows_witness :
  exists l h',
    Session.lookup Sample.pat_data ["4723129"; "3953566"; "4723129"; "943820"] Sample.heap
    = (Ok l, h')
    /\ h' !! l = Some {| Frame.columns := ["PATENT"; "GYEAR"; "COMPNAME"];
                         Frame.rows :=
                           [(0%Z, [Frame.Int 3953566; Frame.Int 1976; Frame.Str "W. L. GORE"]);
                            (2%Z, [Frame.Int 4723129; Frame.Int 1988; Frame.Str "CANON"])] |}.
Proof.
  destruct (lookup_returns_matching_rows Sample.heap Sample.pat_data Sample.table
              ["4723129"; "3953566"; "4723129"; "943820"] 0 1 3)
    as (l & h' & Hrun & Hl & _).
  - reflexivity.
  - reflexivity.
  - reflexivity.
  - reflexivity.
  - intros id Hin. simpl in Hin.
    destruct Hin as [<-|[<-|[<-|[<-|[]]]]]; vm_compute; discriminate.
  - exists l, h'. split; [exact Hrun|exact Hl].
Defined.

(** The claim C7 as written fails: an id that is not an integer literal has
    no row, yet the call raises instead of leaving it out. *)
Lemma lookup_unmatched_id_raises :
  Session.lookup Sample.pat_data ["4723129"; "CITED"] Sample.heap
  = (Raise (ValueError "CITED"), Sample.heap).
Proof.
  rewrite SessionFacts.lookup_unfold. reflexivity.
Qed.

(** C8.  For ASCII ids: when some input id is not an integer literal,
    [lookup] raises, and a call that returns has parsed every id.  On a
    table with a PATENT column the exception is the [ValueError] that [int]
    raises for the first such id, before anything is selected or
    allocated. *)
Theorem lookup_raises_on_non_integer_id
  (h : Session.heap) (pat_data : Session.loc) (ids : list string) :
  List.Forall (fun id => PyStr.is_ascii id = true) ids ->
  (forall id, In id ids -> PyInt.parse id = None ->
     raises (fst (Session.lookup pat_data ids h)))
  /\ (returns (fst (Session.lookup pat_data ids h)) ->
      forall id, In id ids -> PyInt.parse id <> None)
  /\ (forall table iP id,
        h !! pat_data = Some table ->
        Frame.position "PATENT" (Frame.columns table) = Some iP ->
        In id ids -> PyInt.parse id = None ->
        exists good bad rest,
          ids = good ++ bad :: rest
          /\ PyInt.parse bad = None
          /\ List.Forall (fun x => PyInt.parse x <> None) good
          /\ Session.lookup pat_data ids h = (Raise (ValueError bad), h)).
Proof.
  intros _. split; [|split].
  - intros id. apply SessionFacts.lookup_bad_id_raises.
  - intros Hret id Hin Hbad.
    pose proof (SessionFacts.lookup_bad_id_raises h pat_data ids id Hin Hbad) as R.
    destruct (fst _); [exact R|exact Hret].
  - intros table iP id Hpd HP Hin Hbad.
    rewrite SessionFacts.lookup_unfold, Hpd, HP.
    destruct (SessionFacts.ints_bad ids id Hin Hbad) as [e He].
    destruct (SessionFacts.ints_Raise ids e He) as (good & bad & rest & E & -> & Hb & Hg).
    exists good, bad, rest. rewrite He. repeat split; assumption.
Qed.

Lemma lookup_raises_on_non_integer_id_witness :
  exists bad,
    PyInt.parse bad = None
    /\ Session.lookup Sample.pat_data ["4723129"; "4_7"; "n/a"; "x"] Sample.heap
       = (Raise (ValueError bad), Sample.heap).
Proof.
  destruct (lookup_raises_on_non_integer_id Sample.heap Sample.pat_data
              ["4723129"; "4_7"; "n/a"; "x"]) as (_ & _ & Hraise).
  { repeat constructor. }
  destruct (Hraise Sample.table 0%nat "x" eq_refl eq_refl)
    as (good & bad & rest & _ & Hb & _ & Hrun).
  - simpl. tauto.
  - reflexivity.
  - exists bad. split; [exact Hb|exact Hrun].
Defined.

(** C9.  A call to [lookup] leaves every object of the heap as it was, the
    table bound to [pat_data] among them; the object it returns did not exist
    before the call, is not the table, and assigning to it does not reach the
    table. *)
Theorem lookup_leaves_table_unchanged
  (h : Session.heap) (pat_data : Session.loc) (ids : list string) :
  snd (Session.lookup pat_data ids h) !! pat_data = h !! pat_data
  /\ (forall l f, h !! l = Some f ->
                  snd (Session.lookup pat_data ids h) !! l = Some f)
  /\ (forall l, fst (Session.lookup pat_data ids h) = Ok l ->
                h !! l = None
                /\ l <> pat_data
                /\ forall f, <[l := f]> (snd (Session.lookup pat_data ids h)) !! pat_data
                             = h !! pat_data).
Proof.
  assert (Hold : forall l f, h !! l = Some f ->
                   snd (Session.lookup pat_data ids h) !! l = Some f).
  { intros l f Hl. rewrite SessionFacts.lookup_unfold.
    destruct (h !! pat_data) as [t|]; [|exact Hl].
    destruct (Frame.position _ _) as [iP|]; [|exact Hl].
    destruct (PyInt.ints ids) as [zs|e]; [|exact Hl].
    cbv zeta.
    pose proof (SessionFacts.insert_fresh_lookup h
                  {| Frame.columns := Frame.columns t;
                     Frame.rows := Frame.select zs iP (Frame.rows t) |} l) as H1.
    rewrite Hl in H1. specialize (H1 (ex_intro _ f eq_refl)).
    destruct (Frame.getitem_cols _ _) as [proj|e]; simpl; [|exact H1].
    rewrite SessionFacts.insert_fresh_lookup.
    - rewrite SessionFacts.insert_fresh_lookup; [exact H1|].
      rewrite H1. now exists f.
    - rewrite SessionFacts.insert_fresh_lookup; rewrite H1; now exists f. }
  assert (Hnew : forall l, fst (Session.lookup pat_data ids h) = Ok l ->
                   h !! l = None /\ l <> pat_data).
  { intros l Hl. rewrite SessionFacts.lookup_unfold in Hl.
    destruct (h !! pat_data) as [t|] eqn:Et; [|discriminate].
    destruct (Frame.position _ _) as [iP|]; [|discriminate].
    destruct (PyInt.ints ids) as [zs|e]; [|discriminate].
    cbv zeta in Hl.
    destruct (Frame.getitem_cols _ _) as [proj|e]; simpl in Hl; [|discriminate].
    injection Hl as Hl'.
    match type of Hl' with fresh (dom ?h2) = _ =>
      pose proof (SessionFacts.fresh_lookup_None h2) as Hf; rewrite Hl' in Hf
    end.
    assert (Hnone : h !! l = None).
    { destruct (h !! l) as [f|] eqn:El; [|reflexivity].
      rewrite SessionFacts.insert_fresh_lookup in Hf.
      - rewrite SessionFacts.insert_fresh_lookup in Hf; [congruence|now exists f].
      - rewrite SessionFacts.insert_fresh_lookup; rewrite El; now exists f. }
    split; [exact Hnone|]. intros ->. congruence. }
  split; [|split].
  - destruct (h !! pat_data) as [t|] eqn:Et; [now apply Hold|].
    rewrite SessionFacts.lookup_unfold, Et. exact Et.
  - exact Hold.
  - intros l Hl. destruct (Hnew l Hl) as [Hnone Hne].
    repeat split; try assumption.
    intros f. rewrite lookup_insert_ne by exact Hne.
    destruct (h !! pat_data) as [t|] eqn:Et; [now apply Hold|].
    rewrite SessionFacts.lookup_unfold, Et. exact Et.
Qed.

(** C10.  Two id sequences with the same members make [lookup] behave alike:
    either both calls raise, or both return the same new object with the same
    rows in the same order.  A returned frame takes each table row at most
    once, whatever the repetitions among the ids. *)
Theorem lookup_depends_on_id_set
  (h : Session.heap) (pat_data : Session.loc) (ids1 ids2 : list string) :
  (forall id, In id ids1 <-> In id ids2) ->
  match Session.lookup pat_data ids1 h, Session.lookup pat_data ids2 h with
  | (Ok l1, h1), (Ok l2, h2) =>
      l1 = l2 /\ h1 = h2
      /\ exists table frame,
           h !! pat_data = Some table /\ h1 !! l1 = Some frame
           /\ map fst (Frame.rows frame) `sublist_of` map fst (Frame.rows table)
  | (Raise _, h1), (Raise _, h2) => h1 = h2
  | _, _ => False
  end.
Proof.
  intros Hsame. rewrite !SessionFacts.lookup_unfold.
  destruct (h !! pat_data) as [t|] eqn:Et; [|reflexivity].
  destruct (Frame.position _ _) as [iP|]; [|reflexivity].
  destruct (PyInt.ints ids1) as [zs1|e1] eqn:E1;
    destruct (PyInt.ints ids2) as [zs2|e2] eqn:E2.
  - cbv zeta.
    rewrite (SessionFacts.select_matches ids1 zs1) by (now apply SessionFacts.ints_Ok).
    rewrite (SessionFacts.select_matches ids2 zs2) by (now apply SessionFacts.ints_Ok).
    rewrite (filter_ext _ _ (fun r => SessionFacts.matches_same_ids ids1 ids2 iP r Hsame)).
    unfold Frame.getitem_cols. cbn [Frame.columns Frame.rows].
    destruct (Frame.positions _ _) as [ps|e]; simpl; [|reflexivity].
    split; [reflexivity|]. split; [reflexivity|].
    eexists t, _. split; [reflexivity|]. split.
    + apply lookup_insert_eq.
    + cbn [Frame.rows]. rewrite map_map. cbn [fst].
      apply (fmap_sublist fst), SessionFacts.filter_sublist.
  - exfalso. apply SessionFacts.ints_Raise in E2.
    destruct E2 as (good & bad & rest & -> & _ & Hb & _).
    assert (Hin : In bad ids1) by (apply Hsame, in_elt).
    destruct (SessionFacts.ints_bad ids1 bad Hin Hb) as [e He]. congruence.
  - exfalso. apply SessionFacts.ints_Raise in E1.
    destruct E1 as (good & bad & rest & -> & _ & Hb & _).
    assert (Hin : In bad ids2) by (apply Hsame, in_elt).
    destruct (SessionFacts.ints_bad ids2 bad Hin Hb) as [e He]. congruence.
  - reflexivity.
Qed.

Lemma lookup_depends_on_id_set_witness :
  Session.lookup Sample.pat_data ["4723129"; "3953566"; "4723129"] Sample.heap
  = Session.lookup Sample.pat_data ["3953566"; "4723129"] Sample.heap.
Proof.
  pose proof (lookup_depends_on_id_set Sample.heap Sample.pat_data
                ["4723129"; "3953566"; "4723129"] ["3953566"; "4723129"]) as H.
  destruct (Session.lookup Sample.pat_data ["4723129"; "3953566"; "4723129"] Sample.heap)
    as [[l1|e1] h1] eqn:E1;
  destruct (Session.lookup Sample.pat_data ["3953566"; "4723129"] Sample.heap)
    as [[l2|e2] h2] eqn:E2.
  - destruct H as (-> & -> & _); [|reflexivity].
    intros id. simpl. tauto.
  - rewrite SessionFacts.lookup_unfold in E2. discriminate.
  - rewrite SessionFacts.lookup_unfold in E1. discriminate.
  - rewrite SessionFacts.lookup_unfold in E1. discriminate.
Defined.

(** * Further properties *)

(** ** The reader, line by line *)

Module ReaderFacts.
Import Dict DictFacts DiGraph DiGraphFacts AdjList AdjListFacts.

Lemma set_same {V : Type} (k : string) (v : V) (d : dict V) :
  get k d = Some v -> set k v d = d.
Proof.
  induction d as [|[k0 v0] r IH]; simpl; [discriminate|].
  destruct (String.eqb k0 k) eqn:E.
  - intros H. apply String.eqb_eq in E. congruence.
  - intros H. now rewrite IH.
Qed.

Lemma mem_unit_get (k : string) (d : dict unit) :
  mem k d = true -> get k d = Some tt.
Proof.
  unfold mem. destruct (get k d) as [[]|]; [reflexivity|discriminate].
Qed.

(** An edge that is there is added without effect. *)
Lemma add_edge_present u v g :
  wf g -> has_edge u v g = true -> add_edge u v g = Ok g.
Proof.
  intros W H.
  pose proof (has_edge_source g u v W H) as Hu.
  pose proof (wf_closed g W u v H) as Hv. fold (nodes g) in Hv.
  unfold add_edge. rewrite (add_node_old u g W Hu), (add_node_old v g W Hv).
  pose proof H as Hp. rewrite (wf_sym g W) in Hp.
  unfold has_edge in H. unfold has_pred in Hp. unfold getitem.
  destruct (get u (_succ g)) as [su|] eqn:Esu; [|discriminate].
  cbn [rbind _node _succ _pred].
  destruct (get v (_pred g)) as [pv|] eqn:Epv; [|discriminate].
  cbn [rbind _node _succ _pred].
  rewrite (set_same v tt su (mem_unit_get v su H)).
  rewrite (set_same u su (_succ g) Esu).
  rewrite (set_same u tt pv (mem_unit_get u pv Hp)).
  rewrite (set_same v pv (_pred g) Epv).
  now destruct g.
Qed.

Lemma add_edges_from_present u vs g :
  wf g -> (forall v, In v vs -> has_edge u v g = true) ->
  add_edges_from u vs g = Ok g.
Proof.
  intros W. induction vs as [|v r IH]; intros H; simpl; [reflexivity|].
  rewrite (add_edge_present u v g W) by (apply H; now left).
  cbn [rbind]. apply IH. intros; apply H; now right.
Qed.

Section Lines.
Variables comments delimiter : ascii.

Lemma parse_line_present line g :
  wf g ->
  (forall u vs, fields comments delimiter line = u :: vs ->
                In u (nodes g) /\ forall v, In v vs -> has_edge u v g = true) ->
  parse_line comments delimiter line g = Ok g.
Proof.
  intros W H. unfold parse_line.
  destruct (skipped comments line); [reflexivity|].
  destruct (fields comments delimiter line) as [|u vs] eqn:Ef.
  { exfalso. exact (split_nonempty _ _ Ef). }
  destruct (H u vs eq_refl) as [Hu Hv].
  rewrite (add_node_old u g W Hu). now apply add_edges_from_present.
Qed.

Lemma parse_from_app l1 l2 g :
  parse_from comments delimiter (l1 ++ l2) g
  = (let* g' := parse_from comments delimiter l1 g in
     parse_from comments delimiter l2 g').
Proof.
  revert g. induction l1 as [|l r IH]; intros g; simpl; [reflexivity|].
  destruct (parse_line comments delimiter l g); simpl; [apply IH|reflexivity].
Qed.

(** Lines whose content the graph has leave the graph as it is. *)
Lemma parse_from_present lines g :
  wf g ->
  (forall line u vs, In line lines -> skipped comments line = false ->
                     fields comments delimiter line = u :: vs ->
                     In u (nodes g) /\ forall v, In v vs -> has_edge u v g = true) ->
  parse_from comments delimiter lines g = Ok g.
Proof.
  intros W. induction lines as [|l r IH]; intros H; simpl; [reflexivity|].
  assert (E : parse_line comments delimiter l g = Ok g).
  { unfold parse_line. destruct (skipped comments l) eqn:Es; [reflexivity|].
    fold (parse_line comments delimiter l g).
    assert (P := parse_line_present l g W). unfold parse_line in P.
    rewrite Es in P. apply P. intros u vs Hf. apply (H l u vs); auto. now left. }
  rewrite E. cbn [rbind]. apply IH. intros line u vs Hin. apply H. now right.
Qed.

End Lines.

Lemma find_nl_cons c l :
  (PyStr.find PyStr.nl (String c l) < 0)%Z ->
  Ascii.eqb c PyStr.nl = false /\ (PyStr.find PyStr.nl l < 0)%Z.
Proof.
  cbn [PyStr.find]. destruct (Ascii.eqb c PyStr.nl); [lia|].
  destruct (PyStr.find PyStr.nl l <? 0)%Z eqn:E; [|apply Z.ltb_ge in E; lia].
  apply Z.ltb_lt in E. auto.
Qed.

(** A first line is read up to its LF. *)
Lemma readlines_first_line l t :
  (PyStr.find PyStr.nl l < 0)%Z ->
  PyStr.readlines (l ++ String PyStr.nl t)%string
  = (l ++ String PyStr.nl EmptyString)%string :: PyStr.readlines t.
Proof.
  induction l as [|c l IH]; intros H.
  - reflexivity.
  - apply find_nl_cons in H. destruct H as [Hc Hl].
    change (String c l ++ String PyStr.nl t)%string
      with (String c (l ++ String PyStr.nl t)%string).
    cbn [PyStr.readlines]. rewrite Hc, (IH Hl). reflexivity.
Qed.

Lemma is_ascii_app a b :
  PyStr.is_ascii (a ++ b)%string = PyStr.is_ascii a && PyStr.is_ascii b.
Proof.
  induction a as [|c r IH]; [reflexivity|].
  change (String c r ++ b)%string with (String c (r ++ b)%string).
  cbn [PyStr.is_ascii]. now rewrite IH, andb_assoc.
Qed.

End ReaderFacts.

(** X1.  Every graph the reader returns satisfies the invariant of the
    class: the three dictionaries list the same nodes in the same order
    without repetition, [u] is recorded among the predecessors of [v] exactly
    when [v] is among the successors of [u], and every neighbour is a node. *)
Theorem build_graph_keeps_invariant (text : string) (g : DiGraph.t) :
  build_graph text = Ok g -> DiGraph.wf g.
Proof.
  intros H. apply AdjListFacts.build_graph_parsed in H.
  unfold AdjList.parse_adjlist in H.
  destruct (AdjListFacts.parse_from_spec PyStr.dquote PyStr.comma
              (PyStr.readlines text) DiGraph.empty DiGraphFacts.wf_empty)
    as (g' & Hrun & W & _).
  congruence.
Qed.

Lemma build_graph_keeps_invariant_witness :
  exists g, build_graph Sample.edges_text = Ok g /\ DiGraph.wf g.
Proof.
  destruct (build_graph Sample.edges_text) as [g|e] eqn:E; [|discriminate].
  exists g. split; [reflexivity|].
  apply (build_graph_keeps_invariant Sample.edges_text g). exact E.
Defined.

(** X2.  An ASCII first line that begins with the double quote, such as
    the header of the data file, is skipped: the graph is that of the rest of
    the text. *)
Theorem header_line_is_skipped (header text : string) :
  PyStr.is_ascii header = true ->
  (PyStr.find PyStr.nl header < 0)%Z ->
  build_graph (String PyStr.dquote header ++ String PyStr.nl text)%string
  = build_graph text.
Proof.
  intros Hascii H. unfold build_graph, AdjList.read_adjlist.
  rewrite (ReaderFacts.readlines_first_line (String PyStr.dquote header) text).
  - cbn [AdjList.read_from]. unfold PyStr.decode.
    rewrite AdjListFacts.ascii_utf8_valid; [reflexivity|].
    rewrite ReaderFacts.is_ascii_app. cbn [PyStr.is_ascii].
    rewrite Hascii. reflexivity.
  - cbn [PyStr.find]. change (Ascii.eqb PyStr.dquote PyStr.nl) with false.
    destruct (PyStr.find PyStr.nl header <? 0)%Z eqn:E; [lia|].
    apply Z.ltb_ge in E. lia.
Qed.

Lemma header_line_is_skipped_witness :
  build_graph (String PyStr.dquote "CITING,CITED"
               ++ String PyStr.nl Sample.edges_text)%string
  = build_graph Sample.edges_text.
Proof.
  apply (header_line_is_skipped "CITING,CITED" Sample.edges_text).
  - reflexivity.
  - vm_compute. reflexivity.
Defined.

(** X3.  Repeating lines changes nothing: when every line of [more] occurs
    in [lines], reading [lines ++ more] gives the very graph of [lines],
    with the same order of nodes and of neighbours. *)
Theorem repeated_lines_change_nothing (lines more : list string) :
  (forall line, In line more -> In line lines) ->
  AdjList.parse_adjlist PyStr.dquote PyStr.comma (lines ++ more)
  = AdjList.parse_adjlist PyStr.dquote PyStr.comma lines.
Proof.
  intros Hsub. unfold AdjList.parse_adjlist.
  rewrite ReaderFacts.parse_from_app.
  destruct (AdjListFacts.parse_from_spec PyStr.dquote PyStr.comma lines
              DiGraph.empty DiGraphFacts.wf_empty) as (g & -> & W & N & E).
  cbn [rbind]. apply ReaderFacts.parse_from_present; [exact W|].
  intros line u vs Hin Hs Hf. split.
  - apply N. right. exists line. split; [now apply Hsub|]. split; [exact Hs|].
    rewrite Hf. now left.
  - intros v Hv. apply E. right. exists line, vs. auto.
Qed.

Lemma repeated_lines_change_nothing_witness :
  AdjList.parse_adjlist PyStr.dquote PyStr.comma
    ([Sample.ln "A,B"; Sample.ln "B,A"] ++ [Sample.ln "B,A"; Sample.ln "A,B"])
  = AdjList.parse_adjlist PyStr.dquote PyStr.comma [Sample.ln "A,B"; Sample.ln "B,A"].
Proof.
  apply (repeated_lines_change_nothing
           [Sample.ln "A,B"; Sample.ln "B,A"] [Sample.ln "B,A"; Sample.ln "A,B"]).
  intros line H. simpl in *. tauto.
Defined.

(** ** The order of the nodes *)

Module OrderFacts.
Import Dict DictFacts DiGraph DiGraphFacts AdjList AdjListFacts Reading.

Lemma add_node_nodes_eq u g :
  wf g -> nodes (add_node u g) = append_new (nodes g) u.
Proof.
  intros W. unfold add_node, append_new.
  destruct (mem u (_succ g)) eqn:E.
  - apply mem_keys, (in_succ_nodes g u W) in E.
    destruct (in_dec string_dec u (nodes g)); [reflexivity|contradiction].
  - apply mem_false_keys in E. rewrite (wf_succ_keys g W) in E.
    destruct (in_dec string_dec u (nodes g)) as [Hin|_]; [contradiction|].
    unfold nodes. cbn [_node]. now apply keys_set_new.
Qed.

Lemma add_edge_node_dict u v g g' :
  add_edge u v g = Ok g' -> _node g' = _node (add_node v (add_node u g)).
Proof.
  unfold add_edge.
  destruct (getitem u (_succ (add_node v (add_node u g)))) as [su|e]; [|discriminate].
  cbn [rbind _node _succ _pred].
  destruct (getitem v (_pred (add_node v (add_node u g)))) as [pv|e]; [|discriminate].
  cbn [rbind]. intros H. inversion H. reflexivity.
Qed.

Lemma add_edges_from_nodes_eq u vs g g' :
  wf g -> In u (nodes g) ->
  add_edges_from u vs g = Ok g' ->
  nodes g' = fold_left append_new vs (nodes g).
Proof.
  revert g. induction vs as [|v r IH]; intros g W Hu; simpl.
  - intros H. now inversion H.
  - destruct (add_edge_spec u v g W) as (g1 & E1 & W1 & N1 & _).
    rewrite E1. cbn [rbind]. intros H.
    rewrite (IH g1 W1 (proj2 (N1 u) (or_introl eq_refl)) H).
    f_equal. unfold nodes at 1. rewrite (add_edge_node_dict u v g g1 E1).
    fold (nodes (add_node v (add_node u g))).
    rewrite (add_node_nodes_eq v _ (add_node_wf u g W)).
    now rewrite (add_node_old u g W Hu).
Qed.

Section Lines.
Variables comments delimiter : ascii.

Lemma parse_line_nodes_eq line g g' :
  wf g ->
  parse_line comments delimiter line g = Ok g' ->
  nodes g' = fold_left append_new (tokens comments delimiter [line]) (nodes g).
Proof.
  intros W. unfold parse_line, tokens. cbn [flat_map]. rewrite app_nil_r.
  destruct (skipped comments line).
  - intros H. now inversion H.
  - destruct (fields comments delimiter line) as [|u vs]; [discriminate|].
    intros H. cbn [fold_left].
    rewrite <- (add_node_nodes_eq u g W).
    apply (add_edges_from_nodes_eq u vs (add_node u g) g');
      [now apply add_node_wf| |exact H].
    apply add_node_nodes; [exact W|now left].
Qed.

Lemma parse_from_nodes_eq lines g g' :
  wf g ->
  parse_from comments delimiter lines g = Ok g' ->
  nodes g' = fold_left append_new (tokens comments delimiter lines) (nodes g).
Proof.
  revert g. induction lines as [|line rest IH]; intros g W; simpl.
  - intros H. now inversion H.
  - destruct (parse_line_spec comments delimiter line g W) as (g1 & E1 & W1 & _).
    rewrite E1. cbn [rbind]. intros H.
    rewrite (IH g1 W1 H), (parse_line_nodes_eq line g g1 W E1).
    unfold tokens. cbn [flat_map]. rewrite app_nil_r.
    now rewrite fold_left_app.
Qed.

End Lines.

Lemma first_occurrences_snoc l x :
  first_occurrences (l ++ [x]) = append_new (first_occurrences l) x.
Proof.
  unfold first_occurrences, append_new. rewrite rev_app_distr. cbn [rev app nodup].
  destruct (in_dec string_dec x (rev l)) as [Hin|Hnin];
    destruct (in_dec string_dec x (rev (nodup string_dec (rev l)))) as [Hin'|Hnin'].
  - reflexivity.
  - exfalso. apply Hnin'. rewrite <- in_rev. now apply nodup_In.
  - exfalso. apply Hnin. rewrite <- in_rev in Hin'. now apply nodup_In in Hin'.
  - reflexivity.
Qed.

Lemma fold_append_new l1 l2 :
  fold_left append_new l2 (first_occurrences l1) = first_occurrences (l1 ++ l2).
Proof.
  revert l1. induction l2 as [|x r IH]; intros l1; simpl.
  - now rewrite app_nil_r.
  - rewrite <- first_occurrences_snoc, IH, <- app_assoc. reflexivity.
Qed.

End OrderFacts.

(** X4.  On ASCII text the nodes of the graph stand in the order in which
    the reader first meets them in the file: the fields of the lines that are
    not skipped, from left to right and top to bottom, each kept at its first
    place. *)
Theorem nodes_in_order_of_first_appearance (text : string) :
  PyStr.is_ascii text = true ->
  exists g,
    build_graph text = Ok g
    /\ DiGraph.nodes g
       = Reading.first_occurrences
           (Reading.tokens PyStr.dquote PyStr.comma (PyStr.readlines text)).
Proof.
  intros Hascii. rewrite (AdjListFacts.build_graph_ascii text Hascii).
  unfold AdjList.parse_adjlist.
  destruct (AdjListFacts.parse_from_spec PyStr.dquote PyStr.comma
              (PyStr.readlines text) DiGraph.empty DiGraphFacts.wf_empty)
    as (g & Hrun & _).
  exists g. split; [exact Hrun|].
  rewrite (OrderFacts.parse_from_nodes_eq PyStr.dquote PyStr.comma
             (PyStr.readlines text) DiGraph.empty g DiGraphFacts.wf_empty Hrun).
  apply (OrderFacts.fold_append_new []).
Qed.

Lemma nodes_in_order_of_first_appearance_witness :
  exists g,
    build_graph (Sample.ln "B,A" ++ Sample.ln "C,B" ++ Sample.ln "A,C")%string = Ok g
    /\ DiGraph.nodes g = ["B"; "A"; "C"].
Proof.
  destruct (nodes_in_order_of_first_appearance
              (Sample.ln "B,A" ++ Sample.ln "C,B" ++ Sample.ln "A,C")%string)
    as (g & Hrun & Hnodes).
  - reflexivity.
  - exists g. split; [exact Hrun|]. rewrite Hnodes. reflexivity.
Defined.

(** ** Counting edges *)

Module StatsFacts.
Import Dict DictFacts DiGraph DiGraphFacts DegreeFacts GraphStats.

Lemma list_sum_zero {A : Type} (l : list A) :
  list_sum (map (fun _ => 0%nat) l) = 0%nat.
Proof. induction l; simpl; auto. Qed.

Lemma list_sum_add {A : Type} (f h : A -> nat) (l : list A) :
  list_sum (map (fun x => (f x + h x)%nat) l)
  = (list_sum (map f l) + list_sum (map h l))%nat.
Proof. induction l as [|x r IH]; simpl; [reflexivity|]. rewrite IH. lia. Qed.

Lemma list_sum_indicator (x : string) (ns : list string) :
  List.NoDup ns ->
  list_sum (map (fun n => if String.eqb x n then 1%nat else 0%nat) ns)
  = if in_dec string_dec x ns then 1%nat else 0%nat.
Proof.
  induction 1 as [|n r Hn Hr IH]; simpl; [reflexivity|].
  rewrite IH. destruct (String.eqb x n) eqn:E.
  - apply String.eqb_eq in E. subst n.
    destruct (in_dec string_dec x r); [contradiction|].
    destruct (string_dec x x); [reflexivity|congruence].
  - apply String.eqb_neq in E.
    destruct (string_dec n x); [congruence|].
    destruct (in_dec string_dec x r); reflexivity.
Qed.

(** Edges sorted by their target: every edge is counted at one node. *)
Lemma sum_by_target (ns : list string) (es : list (string * string)) :
  List.NoDup ns ->
  (forall e, In e es -> In (snd e) ns) ->
  list_sum (map (fun n => length (List.filter (fun e => String.eqb (snd e) n) es)) ns)
  = length es.
Proof.
  intros Hns. induction es as [|e r IH]; intros Hin.
  - apply list_sum_zero.
  - cbn [List.filter length].
    rewrite (map_ext _ (fun n => ((if String.eqb (snd e) n then 1 else 0)
                                  + length (List.filter (fun e0 => String.eqb (snd e0) n) r))%nat)).
    + rewrite list_sum_add, (list_sum_indicator (snd e) ns Hns), IH.
      * destruct (in_dec string_dec (snd e) ns) as [_|H]; [reflexivity|].
        exfalso. apply H, Hin. now left.
      * intros e0 H0. apply Hin. now right.
    + intros n. destruct (String.eqb (snd e) n); reflexivity.
Qed.

Lemma sum_in_degrees g :
  wf g -> list_sum (map (indegree g) (nodes g)) = length (edges g).
Proof.
  intros W. unfold indegree. apply sum_by_target; [apply (wf_nodup g W)|].
  intros [u v] H. apply (in_edges g u v W) in H.
  apply (wf_closed g W u v H).
Qed.

Lemma length_flat_out_edges (d : dict (dict unit)) :
  length (flat_map out_edges d) = list_sum (map (fun e => length (snd e)) d).
Proof.
  induction d as [|[u nb] r IH]; simpl; [reflexivity|].
  rewrite length_app, IH. unfold out_edges, keys. cbn [fst snd].
  now rewrite !length_map.
Qed.

Lemma sum_over_keys (d : dict (dict unit)) :
  List.NoDup (keys d) ->
  list_sum (map (fun n => match get n d with
                          | Some s => length s
                          | None => 0%nat
                          end) (keys d))
  = list_sum (map (fun e => length (snd e)) d).
Proof.
  induction d as [|[k v] r IH]; simpl; intros H; [reflexivity|].
  inversion H as [|? ? Hk Hr]; subst.
  rewrite String.eqb_refl. f_equal. rewrite <- (IH Hr).
  f_equal. apply map_ext_in. intros n Hn.
  destruct (String.eqb k n) eqn:E; [|reflexivity].
  apply String.eqb_eq in E. subst n. contradiction.
Qed.

Lemma sum_out_degrees g :
  wf g ->
  list_sum (map (fun n => match get n (_succ g) with
                          | Some s => length s
                          | None => 0%nat
                          end) (nodes g))
  = length (edges g).
Proof.
  intros W. unfold nodes, edges. rewrite <- (wf_succ_keys g W).
  rewrite sum_over_keys, length_flat_out_edges; [reflexivity|].
  rewrite (wf_succ_keys g W). apply (wf_nodup g W).
Qed.

Lemma degree_of_spec g ns :
  wf g -> (forall n, In n ns -> In n (nodes g)) ->
  degree_of ns (_succ g) (_pred g)
  = Ok (map (fun n => (n, (match get n (_succ g) with
                            | Some s => length s
                            | None => 0
                            end + indegree g n)%nat)) ns).
Proof.
  intros W. induction ns as [|n r IH]; intros Hin; simpl; [reflexivity|].
  assert (Hn : In n (nodes g)) by (apply Hin; now left).
  pose proof Hn as Hs. apply (in_succ_nodes g n W), keys_get_Some in Hs.
  destruct Hs as [succs Hs].
  apply (in_pred_nodes g n W), keys_get_Some in Hn. destruct Hn as [preds Hp].
  unfold getitem. rewrite Hs, Hp. cbn [rbind].
  rewrite IH by (intros; apply Hin; now right). cbn [rbind].
  now rewrite (length_preds g n preds W Hp).
Qed.

Lemma number_of_edges_spec g :
  wf g -> number_of_edges g = Ok (length (edges g)).
Proof.
  intros W. unfold number_of_edges, size, degree.
  rewrite (degree_of_spec g (nodes g) W) by auto. cbn [rbind].
  unfold sum_degrees. rewrite map_map. cbn [snd].
  rewrite list_sum_add, (sum_out_degrees g W), (sum_in_degrees g W).
  f_equal. replace (length (edges g) + length (edges g))%nat
    with (length (edges g) * 2)%nat by lia.
  now apply Nat.div_mul.
Qed.

End StatsFacts.

(** X5.  [G.number_of_edges()], computed as half the sum of the degrees,
    is the number of distinct edges of the graph. *)
Theorem number_of_edges_counts_edges (g : DiGraph.t) :
  DiGraph.wf g ->
  GraphStats.number_of_edges g = Ok (length (DiGraph.edges g)).
Proof. apply StatsFacts.number_of_edges_spec. Qed.

Lemma number_of_edges_counts_edges_witness :
  exists g, build_graph Sample.edges_text = Ok g
            /\ GraphStats.number_of_edges g = Ok 4%nat.
Proof.
  destruct (build_graph Sample.edges_text) as [g|e] eqn:E; [|discriminate].
  exists g. split; [reflexivity|].
  rewrite (number_of_edges_counts_edges g).
  - vm_compute in E. injection E as <-. reflexivity.
  - apply (AdjListFacts.build_graph_wf Sample.edges_text). exact E.
Defined.

(** X6.  The in-degrees that [G.in_degree()] reports, one per node in node
    order, add up to the number of edges: each edge is counted once, at its
    target, a self-loop included. *)
Theorem in_degrees_add_up_to_edges (g : DiGraph.t) :
  DiGraph.wf g ->
  exists degs,
    DiGraph.in_degree g = Ok degs
    /\ map fst degs = DiGraph.nodes g
    /\ list_sum (map snd degs) = length (DiGraph.edges g).
Proof.
  intros W. rewrite (DegreeFacts.in_degree_spec g W).
  eexists. split; [reflexivity|]. split.
  - rewrite map_map. cbn [fst]. apply map_id.
  - rewrite map_map. cbn [snd]. apply (StatsFacts.sum_in_degrees g W).
Qed.

Lemma in_degrees_add_up_to_edges_witness :
  exists g degs,
    build_graph (Sample.ln "a,a" ++ Sample.ln "b,a")%string = Ok g
    /\ DiGraph.in_degree g = Ok degs
    /\ list_sum (map snd degs) = 2%nat.
Proof.
  destruct (build_graph (Sample.ln "a,a" ++ Sample.ln "b,a")%string) as [g|e] eqn:E;
    [|discriminate].
  destruct (in_degrees_add_up_to_edges g) as (degs & Hrun & _ & Hsum).
  - apply (AdjListFacts.build_graph_wf _ g E).
  - exists g, degs. split; [reflexivity|]. split; [exact Hrun|].
    rewrite Hsum. vm_compute in E. injection E as <-. reflexivity.
Defined.

(** ** Bounds of the scores *)

Module ScoreFacts.
Import Dict DictFacts DiGraph DiGraphFacts DegreeFacts GraphStats.

(** Without a self-loop the predecessors of [v] are among the other nodes. *)
Lemma indegree_bound g v :
  wf g -> In v (nodes g) -> has_edge v v g = false ->
  (S (indegree g v) <= number_of_nodes g)%nat.
Proof.
  intros W Hv Hloop.
  pose proof Hv as Hp. apply (in_pred_nodes g v W), keys_get_Some in Hp.
  destruct Hp as [preds Hp].
  rewrite <- (length_preds g v preds W Hp).
  unfold number_of_nodes. rewrite <- (length_map fst (_node g)).
  rewrite <- (length_map fst preds). fold (keys preds). fold (keys (_node g)).
  change (S (length (keys preds))) with (length (v :: keys preds)).
  apply List.NoDup_incl_length.
  - constructor; [|apply (wf_pred_nodup g W v preds Hp)].
    intros Hin. apply mem_keys in Hin.
    assert (E : has_pred v v g = true) by (unfold has_pred; now rewrite Hp).
    rewrite <- (wf_sym g W) in E. congruence.
  - intros u [<-|Hu]; [exact Hv|].
    apply mem_keys in Hu.
    assert (E : has_pred v u g = true) by (unfold has_pred; now rewrite Hp).
    rewrite <- (wf_sym g W) in E. apply (has_edge_source g u v W E).
Qed.

End ScoreFacts.

(** X7.  With fewer than [2^53] nodes every in-degree centrality score is a
    double that is at least 0, and the score of a node that does not cite
    itself is at most 1: the rounded product never exceeds 1.  (A self-loop
    counts in the in-degree, which can then reach [N].) *)
Theorem in_degree_centrality_bounds (g : DiGraph.t) (v : string) :
  DiGraph.wf g ->
  (Z.of_nat (DiGraph.number_of_nodes g) < 2 ^ 53)%Z ->
  In v (DiGraph.nodes g) ->
  exists table q,
    in_degree_centrality g = Ok table
    /\ Dict.get v table = Some q
    /\ (0 <= q)%Q
    /\ (DiGraph.has_edge v v g = false -> (q <= 1)%Q).
Proof.
  intros W Hsize Hv. rewrite (DegreeFacts.in_degree_centrality_table g W).
  eexists _, _. split; [reflexivity|].
  split; [apply DegreeFacts.get_tabulate, Hv|].
  pose proof (DegreeFacts.indegree_le g v W Hv) as Hd.
  destruct (Nat.leb_spec (DiGraph.number_of_nodes g) 1) as [H|H].
  - split; [discriminate|]. intros _. apply Qle_refl.
  - split; [apply Binary64Facts.score_nonneg; lia|].
    intros Hloop. pose proof (ScoreFacts.indegree_bound g v W Hv Hloop).
    apply Binary64Facts.score_le_1; lia.
Qed.

Lemma in_degree_centrality_bounds_witness :
  exists g table q,
    build_graph Sample.edges_text = Ok g
    /\ in_degree_centrality g = Ok table
    /\ Dict.get "A" table = Some q
    /\ (0 <= q)%Q /\ (q <= 1)%Q.
Proof.
  destruct (build_graph Sample.edges_text) as [g|e] eqn:E; [|discriminate].
  destruct (in_degree_centrality_bounds g "A") as (table & q & Hrun & Hq & H0 & H1).
  - apply (AdjListFacts.build_graph_wf _ g E).
  - vm_compute in E. injection E as <-. reflexivity.
  - vm_compute in E. injection E as <-. simpl. tauto.
  - exists g, table, q. split; [reflexivity|]. split; [exact Hrun|].
    split; [exact Hq|]. split; [exact H0|]. apply H1.
    vm_compute in E. injection E as <-. reflexivity.
Defined.

(** X8.  With fewer than [2^53] nodes the scores follow the in-degrees: a
    node with no fewer citations has no smaller score, rounding included.
    So the ranking by score never puts a node before one that is cited more
    often. *)
Theorem in_degree_centrality_follows_in_degree (g : DiGraph.t) (v w : string) :
  DiGraph.wf g ->
  (Z.of_nat (DiGraph.number_of_nodes g) < 2 ^ 53)%Z ->
  In v (DiGraph.nodes g) ->
  In w (DiGraph.nodes g) ->
  (DiGraph.indegree g v <= DiGraph.indegree g w)%nat ->
  exists table qv qw,
    in_degree_centrality g = Ok table
    /\ Dict.get v table = Some qv
    /\ Dict.get w table = Some qw
    /\ (qv <= qw)%Q.
Proof.
  intros W Hsize Hv Hw Hd. rewrite (DegreeFacts.in_degree_centrality_table g W).
  eexists _, _, _. split; [reflexivity|].
  split; [apply DegreeFacts.get_tabulate, Hv|].
  split; [apply DegreeFacts.get_tabulate, Hw|].
  pose proof (DegreeFacts.indegree_le g w W Hw) as Hle.
  destruct (Nat.leb_spec (DiGraph.number_of_nodes g) 1) as [H|H].
  - apply Qle_refl.
  - apply Binary64Facts.score_mono; lia.
Qed.

Lemma in_degree_centrality_follows_in_degree_witness :
  exists g table qv qw,
    build_graph Sample.edges_text = Ok g
    /\ in_degree_centrality g = Ok table
    /\ Dict.get "B" table = Some qv
    /\ Dict.get "A" table = Some qw
    /\ (qv <= qw)%Q.
Proof.
  destruct (build_graph Sample.edges_text) as [g|e] eqn:E; [|discriminate].
  destruct (in_degree_centrality_follows_in_degree g "B" "A")
    as (table & qv & qw & Hrun & Hv & Hw & Hle).
  - apply (AdjListFacts.build_graph_wf _ g E).
  - vm_compute in E. injection E as <-. reflexivity.
  - vm_compute in E. injection E as <-. simpl. tauto.
  - vm_compute in E. injection E as <-. simpl. tauto.
  - vm_compute in E. injection E as <-. vm_compute. lia.
  - exists g, table, qv, qw. split; [reflexivity|]. auto.
Defined.

(** ** More on the ranking *)

Module RankingMore.
Import Ranking RankingFacts.

Lemma insert_desc_front x l :
  Forall (ge_item x) l -> insert_desc x l = x :: l.
Proof.
  intros H. destruct l as [|y r]; [reflexivity|].
  inversion H as [|? ? Hy _]; subst. cbn [insert_desc].
  unfold score_lt. unfold ge_item in Hy. apply Qle_bool_iff in Hy.
  now rewrite Hy.
Qed.

(** Sorting a list that is in descending order changes nothing. *)
Lemma sorted_desc_fixed l : StronglySorted ge_item l -> sorted_desc l = l.
Proof.
  induction 1 as [|x r Hs IH Hx]; [reflexivity|].
  cbn [sorted_desc fold_right]. fold (sorted_desc r).
  rewrite IH. now apply insert_desc_front.
Qed.

Lemma filter_firstn_prefix {A : Type} (f : A -> bool) n (l : list A) :
  List.filter f l = List.filter f (firstn n l) ++ List.filter f (skipn n l).
Proof. now rewrite <- List.filter_app, firstn_skipn. Qed.


End RankingMore.

(** X9.  Ties keep the order of the score table: for every score [q], the
    entries of score [q] appear in the ranking in the order they have in the
    table, and a cut at [k] keeps the first of them. *)
Theorem ranking_keeps_tie_order (scores : score_table) (k : Z) (q : Q) :
  (0 <= k)%Z ->
  exists cut,
    List.filter (fun it => Qeq_bool (Ranking.itemgetter1 it) q) scores
    = List.filter (fun it => Qeq_bool (Ranking.itemgetter1 it) q)
        (Ranking.top_k scores k) ++ cut.
Proof.
  intros Hk. unfold Ranking.top_k. rewrite RankingFacts.slice_to_nonneg by exact Hk.
  eexists. rewrite <- (RankingFacts.sorted_desc_stable scores q).
  apply RankingMore.filter_firstn_prefix.
Qed.

Lemma ranking_keeps_tie_order_witness :
  exists cut,
    [("B", 1 # 3); ("C", 1 # 3)]%Q
    = List.filter (fun it => Qeq_bool (Ranking.itemgetter1 it) (1 # 3))
        (Ranking.top_k Sample.scores 2) ++ cut.
Proof.
  apply (ranking_keeps_tie_order Sample.scores 2 (1 # 3)). lia.
Defined.

(** X10.  Ranking a ranking changes nothing beyond the cut: the top [j] of
    the top [k] of a table is the top [min j k] of the table. *)
Theorem top_k_of_top_k (scores : score_table) (j k : Z) :
  (0 <= j)%Z -> (0 <= k)%Z ->
  Ranking.top_k (Ranking.top_k scores k) j = Ranking.top_k scores (Z.min j k).
Proof.
  intros Hj Hk. unfold Ranking.top_k.
  rewrite !RankingFacts.slice_to_nonneg by lia.
  rewrite RankingMore.sorted_desc_fixed
    by apply RankingFacts.firstn_sorted, RankingFacts.sorted_desc_sorted.
  rewrite firstn_firstn. f_equal. lia.
Qed.

Lemma top_k_of_top_k_witness :
  Ranking.top_k (Ranking.top_k Sample.scores 3) 10 = Ranking.top_k Sample.scores 3.
Proof.
  apply (top_k_of_top_k Sample.scores 10 3); lia.
Defined.



(** ** More on the report *)

Module LookupMore.
Import Frame Session SessionFacts.

(** A call leaves the objects of the heap in place. *)
Lemma lookup_extends (h : heap) (pat_data : loc) (ids : list string) l f :
  h !! l = Some f -> snd (lookup pat_data ids h) !! l = Some f.
Proof.
  intros Hl. rewrite lookup_unfold.
  destruct (h !! pat_data) as [t|]; [|exact Hl].
  destruct (position _ _) as [iP|]; [|exact Hl].
  destruct (PyInt.ints ids) as [zs|e]; [|exact Hl].
  cbv zeta.
  assert (H1 : forall x, <[fresh (dom h) := x]> h !! l = Some f).
  { intros x. rewrite insert_fresh_lookup; [exact Hl|now exists f]. }
  destruct (getitem_cols _ _) as [proj|e]; cbn [snd]; [|apply H1].
  rewrite insert_fresh_lookup.
  - rewrite insert_fresh_lookup; [apply H1|]. rewrite H1. now exists f.
  - rewrite insert_fresh_lookup; rewrite H1; now exists f.
Qed.

(** A call on a table with the columns it needs, with ids that parse. *)
Lemma lookup_returns (h : heap) (pat_data : loc) (ids : list string) t iP zs ps :
  h !! pat_data = Some t ->
  position "PATENT" (columns t) = Some iP ->
  PyInt.ints ids = Ok zs ->
  positions cols (columns t) = Ok ps ->
  exists l h',
    lookup pat_data ids h = (Ok l, h')
    /\ h !! l = None
    /\ h' !! l = Some {| columns := cols;
                         rows := map (fun r => (fst r, map (fun i => cell_at i r) ps))
                                     (select zs iP (rows t)) |}.
Proof.
  intros Hpd HP Hz Hps. rewrite lookup_unfold, Hpd, HP, Hz. cbv zeta.
  unfold getitem_cols. cbn [columns rows]. rewrite Hps. cbn [rbind].
  eexists _, _. split; [reflexivity|]. split; [|apply lookup_insert_eq].
  match goal with |- h !! fresh (dom ?h2) = None =>
    pose proof (fresh_lookup_None h2) as Hf
  end.
  destruct (h !! fresh (dom _)) as [f|] eqn:El; [|reflexivity].
  rewrite insert_fresh_lookup in Hf.
  - rewrite insert_fresh_lookup in Hf; [congruence|now exists f].
  - rewrite insert_fresh_lookup; rewrite El; now exists f.
Qed.

Lemma ints_values ids zs z :
  PyInt.ints ids = Ok zs ->
  (In z zs <-> exists id, In id ids /\ PyInt.parse id = Some z).
Proof.
  intros H. apply ints_Ok in H. induction H as [|id z0 ids' zs' Hid _ IH]; simpl.
  - split; [tauto|]. intros (id & [] & _).
  - rewrite IH. split.
    + intros [<-|(id' & Hin & Hp)]; [exists id; auto|exists id'; auto].
    + intros (id' & [<-|Hin] & Hp); [left; congruence|right; now exists id'].
Qed.

Lemma ints_length ids zs : PyInt.ints ids = Ok zs -> length zs = length ids.
Proof.
  intros H. apply ints_Ok in H. induction H; simpl; congruence.
Qed.

Lemma cell_eqb_Int c z : cell_eqb c (Int z) = true <-> c = Int z.
Proof.
  destruct c as [x|x|]; simpl; split; try discriminate.
  - intros H. apply Z.eqb_eq in H. now subst.
  - intros H. inversion H. apply Z.eqb_refl.
Qed.

(** The mask in words. *)
Lemma select_spec zs iP r :
  existsb (fun z => cell_eqb (cell_at iP r) (Int z)) zs = true
  <-> exists z, In z zs /\ cell_at iP r = Int z.
Proof.
  rewrite existsb_exists. split; intros (z & Hin & H); exists z;
    (split; [exact Hin|now apply cell_eqb_Int]).
Qed.

Lemma select_mono zs1 zs2 iP rs :
  (forall z, In z zs1 -> In z zs2) ->
  select zs1 iP rs `sublist_of` select zs2 iP rs.
Proof.
  intros H. unfold select. induction rs as [|r rs IH]; simpl; [constructor|].
  destruct (existsb _ zs1) eqn:E1.
  - assert (E2 : existsb (fun z => cell_eqb (cell_at iP r) (Int z)) zs2 = true).
    { apply select_spec. apply select_spec in E1.
      destruct E1 as (z & Hin & Hz). exists z. auto. }
    rewrite E2. now constructor.
  - destruct (existsb _ zs2); [now constructor|exact IH].
Qed.

Lemma select_same zs1 zs2 iP rs :
  (forall z, In z zs1 <-> In z zs2) ->
  select zs1 iP rs = select zs2 iP rs.
Proof.
  intros H. unfold select. apply filter_ext. intros r.
  apply eq_true_iff_eq. rewrite !select_spec.
  split; intros (z & Hin & Hz); exists z; (split; [now apply H|exact Hz]).
Qed.

Lemma select_none zs iP rs :
  (forall r z, In r rs -> In z zs -> cell_at iP r <> Int z) ->
  select zs iP rs = [].
Proof.
  unfold select. induction rs as [|r rs IH]; intros H; [reflexivity|].
  cbn [List.filter]. destruct (existsb _ zs) eqn:Ex.
  - exfalso. apply select_spec in Ex. destruct Ex as (z & Hz & Hc).
    apply (H r z); [now left|exact Hz|exact Hc].
  - apply IH. intros r' z Hr' Hz. apply H; [now right|exact Hz].
Qed.

End LookupMore.

(** X12.  Ids that parse but match no row of the table, and so in
    particular no ids at all, give a frame with the three report columns and
    no rows; nothing is raised. *)
Theorem lookup_without_match_is_empty
  (h : Session.heap) (pat_data : Session.loc) (table : Frame.DataFrame)
  (ids : list string) (iP iG iC : nat) :
  h !! pat_data = Some table ->
  Frame.position "PATENT" (Frame.columns table) = Some iP ->
  Frame.position "GYEAR" (Frame.columns table) = Some iG ->
  Frame.position "COMPNAME" (Frame.columns table) = Some iC ->
  (forall id, In id ids -> PyInt.parse id <> None) ->
  (forall id p r, In id ids -> PyInt.parse id = Some p ->
                  In r (Frame.rows table) -> Frame.cell_at iP r <> Frame.Int p) ->
  exists l h',
    Session.lookup pat_data ids h = (Ok l, h')
    /\ h' !! l = Some {| Frame.columns := Session.cols; Frame.rows := [] |}.
Proof.
  intros Hpd HP HG HC Hparse Hnone.
  destruct (SessionFacts.ints_total ids Hparse) as [zs Hzs].
  destruct (LookupMore.lookup_returns h pat_data ids table iP zs [iP; iG; iC]
              Hpd HP Hzs (SessionFacts.positions_cols _ iP iG iC HP HG HC))
    as (l & h' & Hrun & _ & Hl).
  exists l, h'. split; [exact Hrun|]. rewrite Hl. f_equal. f_equal.
  rewrite (LookupMore.select_none zs iP (Frame.rows table)); [reflexivity|].
  intros r z Hr Hz Hc.
  apply (LookupMore.ints_values ids zs z Hzs) in Hz. destruct Hz as (id & Hid & Hp).
  exact (Hnone id z r Hid Hp Hr Hc).
Qed.

Lemma lookup_without_match_is_empty_witness :
  exists l h',
    Session.lookup Sample.pat_data ["943820"; "2054306"] Sample.heap = (Ok l, h')
    /\ h' !! l = Some {| Frame.columns := Session.cols; Frame.rows := [] |}.
Proof.
  apply (lookup_without_match_is_empty Sample.heap Sample.pat_data Sample.table
           ["943820"; "2054306"] 0 1 3); try reflexivity.
  - intros id Hin. simpl in Hin.
    destruct Hin as [<-|[<-|[]]]; vm_compute; discriminate.
  - intros id p r Hid Hp Hr. simpl in Hid, Hr.
    destruct Hid as [<-|[<-|[]]]; vm_compute in Hp; injection Hp as <-;
      destruct Hr as [<-|[<-|[<-|[]]]]; vm_compute; discriminate.
Defined.

(** X13.  A table without one of the columns makes [lookup] raise
    [KeyError].  Without PATENT the error names PATENT and comes first,
    whatever the ids, and nothing is allocated; without GYEAR or COMPNAME it
    comes after the ids have been parsed, lists every missing report column
    in the order of [cols], and leaves the table as it was. *)
Theorem lookup_missing_column_raises
  (h : Session.heap) (pat_data : Session.loc) (table : Frame.DataFrame)
  (ids : list string) :
  h !! pat_data = Some table ->
  (Frame.position "PATENT" (Frame.columns table) = None ->
   Session.lookup pat_data ids h = (Raise (KeyError "PATENT"), h))
  /\ (forall iP zs missing,
        Frame.position "PATENT" (Frame.columns table) = Some iP ->
        PyInt.ints ids = Ok zs ->
        missing = List.filter
                    (fun c => match Frame.position c (Frame.columns table) with
                              | None => true
                              | Some _ => false
                              end) ["GYEAR"; "COMPNAME"] ->
        missing <> [] ->
        fst (Session.lookup pat_data ids h) = Raise (KeyErrorNotInIndex missing)
        /\ snd (Session.lookup pat_data ids h) !! pat_data = Some table).
Proof.
  intros Hpd. split.
  - intros HP. now rewrite SessionFacts.lookup_unfold, Hpd, HP.
  - intros iP zs missing HP Hz -> Hmiss.
    split; [|now apply LookupMore.lookup_extends].
    rewrite SessionFacts.lookup_unfold, Hpd, HP, Hz. cbv zeta.
    unfold Frame.getitem_cols, Frame.positions, Frame.not_found, Session.cols.
    cbn [Frame.columns List.filter]. cbn [List.filter] in Hmiss. rewrite HP.
    destruct (Frame.position "GYEAR" (Frame.columns table)) as [iG|];
      destruct (Frame.position "COMPNAME" (Frame.columns table)) as [iC|];
      try reflexivity.
    now destruct Hmiss.
Qed.

Lemma lookup_missing_column_raises_witness :
  fst (Session.lookup 1%positive ["4723129"]
         {[ 1%positive := {| Frame.columns := ["PATENT"; "CAT"]; Frame.rows := [] |} ]})
  = Raise (KeyErrorNotInIndex ["GYEAR"; "COMPNAME"]).
Proof.
  destruct (lookup_missing_column_raises
              {[ 1%positive := {| Frame.columns := ["PATENT"; "CAT"]; Frame.rows := [] |} ]}
              1%positive {| Frame.columns := ["PATENT"; "CAT"]; Frame.rows := [] |}
              ["4723129"]) as [_ H].
  - reflexivity.
  - apply (H 0%nat [4723129%Z] ["GYEAR"; "COMPNAME"]).
    + reflexivity.
    + reflexivity.
    + reflexivity.
    + discriminate.
Defined.

(** X14.  Calling [lookup] again with the same ids returns another object
    with the same content; the frame returned first stays as it was. *)
Theorem lookup_again_returns_equal_copy
  (h h1 : Session.heap) (pat_data l1 : Session.loc) (ids : list string) :
  Session.lookup pat_data ids h = (Ok l1, h1) ->
  exists l2 h2,
    Session.lookup pat_data ids h1 = (Ok l2, h2)
    /\ l2 <> l1
    /\ h2 !! l2 = h1 !! l1
    /\ h2 !! l1 = h1 !! l1.
Proof.
  intros H.
  destruct (SessionFacts.lookup_Ok h h1 pat_data l1 ids H)
    as (t & iP & zs & ps & Hpd & HP & Hz & Hps & Hl1).
  assert (Hpd1 : h1 !! pat_data = Some t).
  { pose proof (LookupMore.lookup_extends h pat_data ids pat_data t Hpd) as E.
    now rewrite H in E. }
  destruct (LookupMore.lookup_returns h1 pat_data ids t iP zs ps Hpd1 HP Hz Hps)
    as (l2 & h2 & Hrun & Hfresh & Hl2).
  exists l2, h2. split; [exact Hrun|]. split; [congruence|].
  split; [congruence|].
  pose proof (LookupMore.lookup_extends h1 pat_data ids l1 _ Hl1) as E.
  rewrite Hrun in E. cbn [snd] in E. congruence.
Qed.

Lemma lookup_again_returns_equal_copy_witness :
  exists l1 h1 l2 h2,
    Session.lookup Sample.pat_data ["4723129"] Sample.heap = (Ok l1, h1)
    /\ Session.lookup Sample.pat_data ["4723129"] h1 = (Ok l2, h2)
    /\ l2 <> l1 /\ h2 !! l2 = h1 !! l1.
Proof.
  destruct (Session.lookup Sample.pat_data ["4723129"] Sample.heap)
    as [[l1|e] h1] eqn:E.
  - destruct (lookup_again_returns_equal_copy Sample.heap h1 Sample.pat_data l1
                ["4723129"] E) as (l2 & h2 & Hrun & Hne & Heq & _).
    exists l1, h1, l2, h2. auto.
  - rewrite SessionFacts.lookup_unfold in E. discriminate.
Defined.

(** X15.  More ids never take rows away: when every id of [ids1] is among
    [ids2], the rows returned for [ids1] are among the rows returned for
    [ids2], in the same order.  So the report of the top 10 is contained in
    the report of the top 20. *)
Theorem lookup_is_monotone
  (h h1 h2 : Session.heap) (pat_data l1 l2 : Session.loc) (ids1 ids2 : list string) :
  (forall id, In id ids1 -> In id ids2) ->
  Session.lookup pat_data ids1 h = (Ok l1, h1) ->
  Session.lookup pat_data ids2 h = (Ok l2, h2) ->
  exists f1 f2,
    h1 !! l1 = Some f1 /\ h2 !! l2 = Some f2
    /\ Frame.rows f1 `sublist_of` Frame.rows f2.
Proof.
  intros Hsub H1 H2.
  destruct (SessionFacts.lookup_Ok h h1 pat_data l1 ids1 H1)
    as (t & iP & zs1 & ps & Hpd & HP & Hz1 & Hps & Hl1).
  destruct (SessionFacts.lookup_Ok h h2 pat_data l2 ids2 H2)
    as (t' & iP' & zs2 & ps' & Hpd' & HP' & Hz2 & Hps' & Hl2).
  assert (t' = t) by congruence. subst t'.
  assert (iP' = iP) by congruence. subst iP'.
  assert (ps' = ps) by congruence. subst ps'.
  eexists _, _. split; [exact Hl1|]. split; [exact Hl2|]. cbn [Frame.rows].
  apply (fmap_sublist _), LookupMore.select_mono.
  intros z Hz. apply (LookupMore.ints_values ids1 zs1 z Hz1) in Hz.
  destruct Hz as (id & Hid & Hp).
  apply (LookupMore.ints_values ids2 zs2 z Hz2). exists id. auto.
Qed.

Lemma lookup_is_monotone_witness :
  exists l1 h1 l2 h2 f1 f2,
    Session.lookup Sample.pat_data ["4723129"] Sample.heap = (Ok l1, h1)
    /\ Session.lookup Sample.pat_data ["3953566"; "4723129"] Sample.heap = (Ok l2, h2)
    /\ h1 !! l1 = Some f1 /\ h2 !! l2 = Some f2
    /\ Frame.rows f1 `sublist_of` Frame.rows f2.
Proof.
  destruct (Session.lookup Sample.pat_data ["4723129"] Sample.heap)
    as [[l1|e1] h1] eqn:E1;
    [|rewrite SessionFacts.lookup_unfold in E1; discriminate].
  destruct (Session.lookup Sample.pat_data ["3953566"; "4723129"] Sample.heap)
    as [[l2|e2] h2] eqn:E2;
    [|rewrite SessionFacts.lookup_unfold in E2; discriminate].
  destruct (lookup_is_monotone Sample.heap h1 h2 Sample.pat_data l1 l2
              ["4723129"] ["3953566"; "4723129"]) as (f1 & f2 & H1 & H2 & Hs).
  - intros id H. simpl in *. tauto.
  - exact E1.
  - exact E2.
  - exists l1, h1, l2, h2, f1, f2. auto.
Defined.

(** X16.  When no two rows of the table hold the same PATENT cell, the frame
    returned has at most as many rows as there are input ids. *)
Theorem lookup_returns_at_most_one_row_per_id
  (h h' : Session.heap) (pat_data l : Session.loc) (table : Frame.DataFrame)
  (ids : list string) (iP : nat) :
  h !! pat_data = Some table ->
  Frame.position "PATENT" (Frame.columns table) = Some iP ->
  List.NoDup (map (Frame.cell_at iP) (Frame.rows table)) ->
  Session.lookup pat_data ids h = (Ok l, h') ->
  exists f, h' !! l = Some f /\ (length (Frame.rows f) <= length ids)%nat.
Proof.
  intros Hpd HP Hkey H.
  destruct (SessionFacts.lookup_Ok h h' pat_data l ids H)
    as (t & iP' & zs & ps & Hpd' & HP' & Hz & Hps & Hl).
  assert (t = table) by congruence. subst t.
  assert (iP' = iP) by congruence. subst iP'.
  eexists. split; [exact Hl|]. cbn [Frame.rows].
  rewrite length_map, <- (LookupMore.ints_length ids zs Hz).
  rewrite <- (length_map (Frame.cell_at iP)), <- (length_map Frame.Int zs).
  apply List.NoDup_incl_length.
  - apply NoDup_ListNoDup.
    eapply sublist_NoDup; [apply NoDup_ListNoDup; exact Hkey|].
    apply (fmap_sublist _), SessionFacts.select_sublist.
  - intros c Hc. apply in_map_iff in Hc. destruct Hc as (r & <- & Hr).
    unfold Frame.select in Hr. apply filter_In in Hr. destruct Hr as [_ Hr].
    apply LookupMore.select_spec in Hr. destruct Hr as (z & Hz' & ->).
    now apply in_map.
Qed.

Lemma lookup_returns_at_most_one_row_per_id_witness :
  exists l h' f,
    Session.lookup Sample.pat_data ["4723129"; "4723129"; "5"] Sample.heap = (Ok l, h')
    /\ h' !! l = Some f /\ (length (Frame.rows f) <= 3)%nat.
Proof.
  destruct (Session.lookup Sample.pat_data ["4723129"; "4723129"; "5"] Sample.heap)
    as [[l|e] h'] eqn:E;
    [|rewrite SessionFacts.lookup_unfold in E; discriminate].
  destruct (lookup_returns_at_most_one_row_per_id Sample.heap h' Sample.pat_data l
              Sample.table ["4723129"; "4723129"; "5"] 0) as (f & Hf & Hlen).
  - reflexivity.
  - reflexivity.
  - simpl. repeat constructor; simpl; intuition discriminate.
  - exact E.
  - exists l, h', f. auto.
Defined.

(** X17.  Only the values of the ids count: two sequences of integer
    literals with the same set of values, such as 7, 007 and +7, make
    [lookup] return the same object in the same heap. *)
Theorem lookup_depends_on_values
  (h : Session.heap) (pat_data : Session.loc) (ids1 ids2 : list string) :
  (forall id, In id ids1 -> PyInt.parse id <> None) ->
  (forall id, In id ids2 -> PyInt.parse id <> None) ->
  (forall z, (exists id, In id ids1 /\ PyInt.parse id = Some z)
             <-> (exists id, In id ids2 /\ PyInt.parse id = Some z)) ->
  Session.lookup pat_data ids1 h = Session.lookup pat_data ids2 h.
Proof.
  intros P1 P2 Hsame.
  destruct (SessionFacts.ints_total ids1 P1) as [zs1 Hz1].
  destruct (SessionFacts.ints_total ids2 P2) as [zs2 Hz2].
  rewrite !SessionFacts.lookup_unfold, Hz1, Hz2.
  destruct (h !! pat_data) as [t|]; [|reflexivity].
  destruct (Frame.position _ _) as [iP|]; [|reflexivity].
  rewrite (LookupMore.select_same zs1 zs2 iP (Frame.rows t)); [reflexivity|].
  intros z. rewrite (LookupMore.ints_values ids1 zs1 z Hz1).
  rewrite (LookupMore.ints_values ids2 zs2 z Hz2). apply Hsame.
Qed.

Lemma lookup_depends_on_values_witness :
  Session.lookup Sample.pat_data ["04723129"; " 3953566"] Sample.heap
  = Session.lookup Sample.pat_data ["3_953_566"; "+4723129"; "3953566"] Sample.heap.
Proof.
  apply (lookup_depends_on_values Sample.heap Sample.pat_data
           ["04723129"; " 3953566"] ["3_953_566"; "+4723129"; "3953566"]).
  - intros id H. simpl in H. destruct H as [<-|[<-|[]]]; vm_compute; discriminate.
  - intros id H. simpl in H.
    destruct H as [<-|[<-|[<-|[]]]]; vm_compute; discriminate.
  - intros z. split.
    + intros (id & H & Hp). simpl in H. destruct H as [<-|[<-|[]]];
        vm_compute in Hp; injection Hp as <-.
      * exists "+4723129". split; [simpl; tauto|reflexivity].
      * exists "3953566". split; [simpl; tauto|reflexivity].
    + intros (id & H & Hp). simpl in H. destruct H as [<-|[<-|[<-|[]]]];
        vm_compute in Hp; injection Hp as <-.
      * exists " 3953566". split; [simpl; tauto|reflexivity].
      * exists "04723129". split; [simpl; tauto|reflexivity].
      * exists " 3953566". split; [simpl; tauto|reflexivity].
Defined.

(** ** From the file to the report *)

Module NotebookFacts.
Import DiGraph Reading Notebook.

Lemma in_tokens comments delimiter lines n :
  In n (tokens comments delimiter lines) <->
  exists line, In line lines
               /\ AdjList.skipped comments line = false
               /\ In n (AdjList.fields comments delimiter line).
Proof.
  unfold tokens. rewrite in_flat_map. split.
  - intros (line & Hl & H). exists line.
    destruct (AdjList.skipped comments line); [destruct H|auto].
  - intros (line & Hl & Hs & H). exists line. rewrite Hs. auto.
Qed.

(** The nodes of a graph that was read are the tokens of the file. *)
Lemma built_nodes text g n :
  build_graph text = Ok g ->
  (In n (nodes g) <->
   In n (tokens PyStr.dquote PyStr.comma (PyStr.readlines text))).
Proof.
  intros H. apply AdjListFacts.build_graph_parsed in H.
  unfold AdjList.parse_adjlist in H.
  destruct (AdjListFacts.parse_from_spec PyStr.dquote PyStr.comma
              (PyStr.readlines text) empty DiGraphFacts.wf_empty)
    as (g' & Hrun & _ & N & _).
  assert (g' = g) by congruence. subst g'.
  rewrite N, in_tokens. split; [intros [[]|H']; exact H'|auto].
Qed.

(** The ids of the ranking are nodes; they are all the nodes when the graph
    has at most ten. *)
Lemma top_deg_ids g :
  wf g ->
  exists top,
    top_deg_centrality g = Ok top
    /\ (forall id, In id (ids_of top) -> In id (nodes g))
    /\ ((number_of_nodes g <= 10)%nat ->
        forall id, In id (nodes g) -> In id (ids_of top)).
Proof.
  intros W. unfold top_deg_centrality, ids_of.
  rewrite (DegreeFacts.in_degree_centrality_table g W). cbn [rbind].
  set (table := map _ (nodes g)).
  assert (K : map fst table = nodes g) by apply DegreeFacts.keys_tabulate.
  assert (P : Permutation (map fst (Ranking.sorted_desc table)) (nodes g)).
  { rewrite <- K. apply Permutation_map, RankingFacts.sorted_desc_perm. }
  eexists. split; [reflexivity|]. split.
  - intros id Hid. eapply Permutation_in; [exact P|].
    unfold Ranking.top_k in Hid. rewrite RankingFacts.slice_to_nonneg in Hid by lia.
    apply in_map_iff in Hid. destruct Hid as (it & <- & Hit).
    apply in_map. eapply RankingFacts.in_firstn; exact Hit.
  - intros HN id Hid. unfold Ranking.top_k.
    rewrite RankingFacts.slice_to_nonneg by lia.
    rewrite firstn_all2.
    + eapply Permutation_in; [symmetry; exact P|exact Hid].
    + rewrite RankingFacts.sorted_desc_length. unfold table.
      rewrite length_map. unfold nodes, Dict.keys. rewrite length_map.
      exact HN.
Qed.

Lemma report_unfold g pat_data h top :
  top_deg_centrality g = Ok top ->
  report g pat_data h = Session.lookup pat_data (ids_of top) h.
Proof.
  intros H. unfold report, Session.bind, Session.lift. now rewrite H.
Qed.

End NotebookFacts.

(** X18.  From the file to the report: when the file is ASCII text, every
    field of every line that is read is an integer literal and the table has
    the three report columns, the cells that build the graph, rank in-degree
    centrality and look the top ten up raise nothing; they return a new frame
    with the report columns and leave the table as it was. *)
Theorem report_returns_on_integer_ids
  (text : string) (h : Session.heap) (pat_data : Session.loc)
  (table : Frame.DataFrame) (iP iG iC : nat) :
  PyStr.is_ascii text = true ->
  Reading.integer_fields PyStr.dquote PyStr.comma (PyStr.readlines text) ->
  h !! pat_data = Some table ->
  Frame.position "PATENT" (Frame.columns table) = Some iP ->
  Frame.position "GYEAR" (Frame.columns table) = Some iG ->
  Frame.position "COMPNAME" (Frame.columns table) = Some iC ->
  exists g l h' f,
    build_graph text = Ok g
    /\ Notebook.report g pat_data h = (Ok l, h')
    /\ h' !! l = Some f
    /\ Frame.columns f = Session.cols
    /\ h !! l = None
    /\ h' !! pat_data = Some table.
Proof.
  intros Hascii Hint Hpd HP HG HC.
  destruct (build_graph text) as [g|e] eqn:Eg.
  2:{ rewrite (AdjListFacts.build_graph_ascii text Hascii) in Eg.
      unfold AdjList.parse_adjlist in Eg.
      destruct (AdjListFacts.parse_from_spec PyStr.dquote PyStr.comma
                  (PyStr.readlines text) DiGraph.empty DiGraphFacts.wf_empty)
        as (g' & Hrun & _). congruence. }
  pose proof (AdjListFacts.build_graph_wf text g Eg) as W.
  destruct (NotebookFacts.top_deg_ids g W) as (top & Htop & Hnodes & _).
  destruct (SessionFacts.ints_total (Notebook.ids_of top)) as [zs Hzs].
  { intros id Hid. apply Hint, (NotebookFacts.built_nodes text g id Eg), Hnodes, Hid. }
  destruct (LookupMore.lookup_returns h pat_data (Notebook.ids_of top) table iP zs
              [iP; iG; iC] Hpd HP Hzs
              (SessionFacts.positions_cols _ iP iG iC HP HG HC))
    as (l & h' & Hrun & Hfresh & Hl).
  exists g, l, h'. eexists. split; [reflexivity|].
  rewrite (NotebookFacts.report_unfold g pat_data h top Htop).
  split; [exact Hrun|]. split; [exact Hl|]. split; [reflexivity|].
  split; [exact Hfresh|].
  pose proof (LookupMore.lookup_extends h pat_data (Notebook.ids_of top)
                pat_data table Hpd) as E.
  now rewrite Hrun in E.
Qed.

Lemma report_returns_on_integer_ids_witness :
  exists g l h' f,
    build_graph (Sample.ln "4723129,3953566" ++ Sample.ln "5,3953566")%string = Ok g
    /\ Notebook.report g Sample.pat_data Sample.heap = (Ok l, h')
    /\ h' !! l = Some f
    /\ Frame.columns f = Session.cols.
Proof.
  destruct (report_returns_on_integer_ids
              (Sample.ln "4723129,3953566" ++ Sample.ln "5,3953566")%string
              Sample.heap Sample.pat_data Sample.table 0 1 3)
    as (g & l & h' & f & Hg & Hrun & Hl & Hc & _).
  - reflexivity.
  - intros id Hid. vm_compute in Hid.
    destruct Hid as [<-|[<-|[<-|[<-|[]]]]]; vm_compute; discriminate.
  - reflexivity.
  - reflexivity.
  - reflexivity.
  - reflexivity.
  - exists g, l, h', f. auto.
Defined.

(** X19.  On a graph of at most ten nodes read from ASCII text every node
    is looked up, so one field of the file that is not an integer literal
    makes the report raise.  A blank line is enough: its only field is the
    empty string. *)
Theorem report_raises_on_small_graph
  (text : string) (g : DiGraph.t) (h : Session.heap) (pat_data : Session.loc)
  (id : string) :
  PyStr.is_ascii text = true ->
  build_graph text = Ok g ->
  (DiGraph.number_of_nodes g <= 10)%nat ->
  In id (Reading.tokens PyStr.dquote PyStr.comma (PyStr.readlines text)) ->
  PyInt.parse id = None ->
  raises (fst (Notebook.report g pat_data h)).
Proof.
  intros _ Eg HN Hid Hbad.
  pose proof (AdjListFacts.build_graph_wf text g Eg) as W.
  destruct (NotebookFacts.top_deg_ids g W) as (top & Htop & _ & Hall).
  rewrite (NotebookFacts.report_unfold g pat_data h top Htop).
  apply (SessionFacts.lookup_bad_id_raises h pat_data (Notebook.ids_of top) id);
    [|exact Hbad].
  apply (Hall HN), (NotebookFacts.built_nodes text g id Eg), Hid.
Qed.

Lemma report_raises_on_small_graph_witness :
  exists g,
    build_graph (Sample.ln "4723129,3953566" ++ Sample.ln EmptyString)%string = Ok g
    /\ DiGraph.nodes g = ["4723129"; "3953566"; EmptyString]
    /\ raises (fst (Notebook.report g Sample.pat_data Sample.heap)).
Proof.
  destruct (build_graph (Sample.ln "4723129,3953566" ++ Sample.ln EmptyString)%string)
    as [g|e] eqn:E; [|discriminate].
  exists g. split; [reflexivity|]. split.
  - vm_compute in E. injection E as <-. reflexivity.
  - apply (report_raises_on_small_graph
             (Sample.ln "4723129,3953566" ++ Sample.ln EmptyString)%string
             g Sample.heap Sample.pat_data EmptyString eq_refl E).
    + vm_compute in E. injection E as <-. vm_compute. lia.
    + vm_compute. tauto.
    + reflexivity.
Defined.
